(** * The dual-instance speech scheduler of [speech_handler_v2.py]

    [SpeechHandlerV2.get_html_content] ships a page whose script multiplexes
    two [webkitSpeechRecognition] objects, [recognitionA] and [recognitionB].
    This file embeds that script: its global variables become the fields of
    [State], its functions and callbacks become functions on [State], and the
    host (clock, [setTimeout]/[setInterval] queue, engine calls, [fetch]
    requests, the two DOM elements the script writes) is made explicit.

    What the engine does is not in the repository, so it is an input: an
    [Event] says which callback the host runs next, and where the script
    calls [recognition.start()] inside a [try], the event carries whether
    that call throws.

    The commands reach the script through the buttons, the [message]
    listener and the [?action=start] timeout; all of them just call
    [startRec], [stopRec] or [clearText], so they are the three command
    events.

    Not modelled: [debug] and [updateInstanceInfo] (they only render
    diagnostics derived from the state), the unused global [lastFinalIndex],
    and the outcome of the [fetch] promise (its [catch] only calls [debug]). *)

From Stdlib Require Import String Ascii List Arith NArith Bool Lia.
From Stdlib Require Import ZArith.
Import ListNotations.

Local Open Scope string_scope.
Local Open Scope list_scope.

(** ** Data *)

(** [instanceName]: ['A'] or ['B']. *)
Inductive InstanceName : Type := A | B.

Definition instance_eqb (x y : InstanceName) : bool :=
  match x, y with
  | A, A => true
  | B, B => true
  | _, _ => false
  end.

Definition other (x : InstanceName) : InstanceName :=
  match x with A => B | B => A end.

(** One entry of [event.results]: [result[0].transcript] and [result.isFinal]. *)
Record SpeechResult : Type := mkResult {
  transcript : string;
  isFinal : bool
}.

(** The only field the script adds to a recognition object. *)
Record Recognition : Type := mkRecognition {
  lastResultIndex : nat
}.

(** The three closures the script hands to the host's timers. *)
Inductive Task : Type :=
| TaskSwitch                                          (* the [setInterval] callback of [startRec] *)
| TaskHandoff (newInstance oldInstance : InstanceName) (* the [setTimeout] callback of [switchInstances] *)
| TaskRestart (instanceName : InstanceName).          (* the [setTimeout] callback of [onend] *)

Record Timer : Type := mkTimer {
  handle : nat;
  due : N;
  every : option N;   (* [Some p] for an interval of period [p] *)
  task : Task
}.

(** Calls made on the engine. [abort] is part of the engine's interface; the
    script never calls it. *)
Inductive EngineCall : Type :=
| EngineStart (x : InstanceName) (threw : bool)
| EngineStop (x : InstanceName)
| EngineAbort (x : InstanceName).

(** A [fetch('/transcript?text=' + ...)] request, tagged with the instance
    whose callback issued it and the index of the result it carries. *)
Record Forwarded : Type := mkForwarded {
  sender : InstanceName;
  resultIdx : nat;
  text : string
}.

Inductive StatusEl : Type := StatusInitial | StatusListening | StatusStopped.

Record Config : Type := mkConfig {
  maxSessionTime : N;
  overlapTime : N;
  minRestartDelay : N
}.

(** The values of the script's [CONFIG] object. *)
Definition CONFIG : Config :=
  {| maxSessionTime := 55000; overlapTime := 2000; minRestartDelay := 50 |}.

Record State : Type := mkState {
  (* script globals *)
  isRecording : bool;
  finalText : string;
  recognitionA : option Recognition;
  recognitionB : option Recognition;
  activeInstance : InstanceName;
  switchTimer : option nat;
  sessionStartTime : option N;
  wordCount : nat;
  instanceSwitches : nat;
  (* host *)
  now : N;
  nextHandle : nat;
  timers : list Timer;
  calls : list EngineCall;
  sink : list Forwarded;
  statusEl : StatusEl;
  transcriptEl : string
}.

(** The page as loaded. *)
Definition initial : State :=
  {| isRecording := false; finalText := ""; recognitionA := None;
     recognitionB := None; activeInstance := A; switchTimer := None;
     sessionStartTime := None; wordCount := 0; instanceSwitches := 0;
     now := 0%N; nextHandle := 0; timers := []; calls := []; sink := [];
     statusEl := StatusInitial; transcriptEl := "" |}.

(** ** Assignments *)

Definition set_isRecording (v : bool) (s : State) : State :=
  mkState v (finalText s) (recognitionA s) (recognitionB s) (activeInstance s)
    (switchTimer s) (sessionStartTime s) (wordCount s) (instanceSwitches s)
    (now s) (nextHandle s) (timers s) (calls s) (sink s) (statusEl s) (transcriptEl s).

Definition set_finalText (v : string) (s : State) : State :=
  mkState (isRecording s) v (recognitionA s) (recognitionB s) (activeInstance s)
    (switchTimer s) (sessionStartTime s) (wordCount s) (instanceSwitches s)
    (now s) (nextHandle s) (timers s) (calls s) (sink s) (statusEl s) (transcriptEl s).

Definition set_recognitionA (v : option Recognition) (s : State) : State :=
  mkState (isRecording s) (finalText s) v (recognitionB s) (activeInstance s)
    (switchTimer s) (sessionStartTime s) (wordCount s) (instanceSwitches s)
    (now s) (nextHandle s) (timers s) (calls s) (sink s) (statusEl s) (transcriptEl s).

Definition set_recognitionB (v : option Recognition) (s : State) : State :=
  mkState (isRecording s) (finalText s) (recognitionA s) v (activeInstance s)
    (switchTimer s) (sessionStartTime s) (wordCount s) (instanceSwitches s)
    (now s) (nextHandle s) (timers s) (calls s) (sink s) (statusEl s) (transcriptEl s).

Definition set_activeInstance (v : InstanceName) (s : State) : State :=
  mkState (isRecording s) (finalText s) (recognitionA s) (recognitionB s) v
    (switchTimer s) (sessionStartTime s) (wordCount s) (instanceSwitches s)
    (now s) (nextHandle s) (timers s) (calls s) (sink s) (statusEl s) (transcriptEl s).

Definition set_switchTimer (v : option nat) (s : State) : State :=
  mkState (isRecording s) (finalText s) (recognitionA s) (recognitionB s) (activeInstance s)
    v (sessionStartTime s) (wordCount s) (instanceSwitches s)
    (now s) (nextHandle s) (timers s) (calls s) (sink s) (statusEl s) (transcriptEl s).

Definition set_sessionStartTime (v : option N) (s : State) : State :=
  mkState (isRecording s) (finalText s) (recognitionA s) (recognitionB s) (activeInstance s)
    (switchTimer s) v (wordCount s) (instanceSwitches s)
    (now s) (nextHandle s) (timers s) (calls s) (sink s) (statusEl s) (transcriptEl s).

Definition set_wordCount (v : nat) (s : State) : State :=
  mkState (isRecording s) (finalText s) (recognitionA s) (recognitionB s) (activeInstance s)
    (switchTimer s) (sessionStartTime s) v (instanceSwitches s)
    (now s) (nextHandle s) (timers s) (calls s) (sink s) (statusEl s) (transcriptEl s).

Definition set_instanceSwitches (v : nat) (s : State) : State :=
  mkState (isRecording s) (finalText s) (recognitionA s) (recognitionB s) (activeInstance s)
    (switchTimer s) (sessionStartTime s) (wordCount s) v
    (now s) (nextHandle s) (timers s) (calls s) (sink s) (statusEl s) (transcriptEl s).

Definition set_now (v : N) (s : State) : State :=
  mkState (isRecording s) (finalText s) (recognitionA s) (recognitionB s) (activeInstance s)
    (switchTimer s) (sessionStartTime s) (wordCount s) (instanceSwitches s)
    v (nextHandle s) (timers s) (calls s) (sink s) (statusEl s) (transcriptEl s).

Definition set_nextHandle (v : nat) (s : State) : State :=
  mkState (isRecording s) (finalText s) (recognitionA s) (recognitionB s) (activeInstance s)
    (switchTimer s) (sessionStartTime s) (wordCount s) (instanceSwitches s)
    (now s) v (timers s) (calls s) (sink s) (statusEl s) (transcriptEl s).

Definition set_timers (v : list Timer) (s : State) : State :=
  mkState (isRecording s) (finalText s) (recognitionA s) (recognitionB s) (activeInstance s)
    (switchTimer s) (sessionStartTime s) (wordCount s) (instanceSwitches s)
    (now s) (nextHandle s) v (calls s) (sink s) (statusEl s) (transcriptEl s).

Definition set_calls (v : list EngineCall) (s : State) : State :=
  mkState (isRecording s) (finalText s) (recognitionA s) (recognitionB s) (activeInstance s)
    (switchTimer s) (sessionStartTime s) (wordCount s) (instanceSwitches s)
    (now s) (nextHandle s) (timers s) v (sink s) (statusEl s) (transcriptEl s).

Definition set_sink (v : list Forwarded) (s : State) : State :=
  mkState (isRecording s) (finalText s) (recognitionA s) (recognitionB s) (activeInstance s)
    (switchTimer s) (sessionStartTime s) (wordCount s) (instanceSwitches s)
    (now s) (nextHandle s) (timers s) (calls s) v (statusEl s) (transcriptEl s).

Definition set_statusEl (v : StatusEl) (s : State) : State :=
  mkState (isRecording s) (finalText s) (recognitionA s) (recognitionB s) (activeInstance s)
    (switchTimer s) (sessionStartTime s) (wordCount s) (instanceSwitches s)
    (now s) (nextHandle s) (timers s) (calls s) (sink s) v (transcriptEl s).

Definition set_transcriptEl (v : string) (s : State) : State :=
  mkState (isRecording s) (finalText s) (recognitionA s) (recognitionB s) (activeInstance s)
    (switchTimer s) (sessionStartTime s) (wordCount s) (instanceSwitches s)
    (now s) (nextHandle s) (timers s) (calls s) (sink s) (statusEl s) v.

Definition recognition (x : InstanceName) (s : State) : option Recognition :=
  match x with A => recognitionA s | B => recognitionB s end.

Definition set_recognition (x : InstanceName) (v : option Recognition) (s : State) : State :=
  match x with A => set_recognitionA v s | B => set_recognitionB v s end.

(** The cursor of an instance; [0] for an object not created yet, which is
    the value [initRecognition] gives it. *)
Definition cursor (x : InstanceName) (s : State) : nat :=
  match recognition x s with
  | Some r => lastResultIndex r
  | None => 0
  end.

(** ** JavaScript strings *)

Module Js.

(** [str.split(' ')]: the pieces between single space characters; the empty
    string splits into one empty piece. *)
Fixpoint split_space (str : string) : list string :=
  match str with
  | EmptyString => [EmptyString]
  | String c rest =>
      if Ascii.eqb c " "%char then EmptyString :: split_space rest
      else match split_space rest with
           | [] => [String c EmptyString]
           | piece :: pieces => String c piece :: pieces
           end
  end.

Definition dquote : string := String (ascii_of_nat 34) EmptyString.

End Js.

(** ** Host primitives *)

Definition handle_is (h : nat) (t : Timer) : bool := Nat.eqb (handle t) h.

Definition enqueue (t : Timer) (s : State) : State :=
  set_nextHandle (S (nextHandle s)) (set_timers (timers s ++ [t]) s).

(** [setTimeout(cb, delay)]; the handle returned is [nextHandle s]. *)
Definition setTimeout (cb : Task) (delay : N) (s : State) : State :=
  enqueue (mkTimer (nextHandle s) (now s + delay) None cb) s.

(** [setInterval(cb, period)]; the handle returned is [nextHandle s]. *)
Definition setInterval (cb : Task) (period : N) (s : State) : State :=
  enqueue (mkTimer (nextHandle s) (now s + period) (Some period) cb) s.

(** [clearInterval(h)]; [null] and unknown handles are ignored. *)
Definition clearInterval (h : option nat) (s : State) : State :=
  match h with
  | None => s
  | Some h' => set_timers (filter (fun t => negb (handle_is h' t)) (timers s)) s
  end.

(** [recognition.start()] inside a [try]: the state after the call and
    whether the [try] body goes on. A [null] object makes the call itself a
    [TypeError]. *)
Definition engine_start (x : InstanceName) (throws : bool) (s : State) : State * bool :=
  match recognition x s with
  | None => (s, false)
  | Some _ => (set_calls (calls s ++ [EngineStart x throws]) s, negb throws)
  end.

(** [recognition.stop()] inside a [try] whose [catch] changes nothing. *)
Definition engine_stop (x : InstanceName) (s : State) : State :=
  match recognition x s with
  | None => s
  | Some _ => set_calls (calls s ++ [EngineStop x]) s
  end.

Section Scheduler.

Variable cfg : Config.

(** ['webkitSpeechRecognition' in window] *)
Variable speechApi : bool.

(** ** [initRecognition] and its callbacks

    The callbacks are installed by [initRecognition]; an instance whose
    object was never created has none, so its events change nothing. *)

Definition initRecognition (instanceName : InstanceName) : option Recognition :=
  if speechApi then Some (mkRecognition 0) else None.

(** Body of the first loop of [onresult] at index [i]. *)
Definition result_step (instanceName : InstanceName) (results : list SpeechResult)
    (s : State) (i : nat) : State :=
  match nth_error results i with
  | None => s
  | Some result =>
      if isFinal result then
        if instance_eqb instanceName (activeInstance s) then
          let s1 := set_finalText (finalText s ++ transcript result ++ " ") s in
          let s2 := set_wordCount
                      (wordCount s1 + length (Js.split_space (transcript result))) s1 in
          set_sink (sink s2 ++ [mkForwarded instanceName i (transcript result)]) s2
        else s
      else s
  end.

(** The second loop of [onresult]: the last non-final transcript from
    [event.resultIndex] on. *)
Definition interim_of (resultIndex : nat) (results : list SpeechResult) : string :=
  fold_left (fun interim r => if isFinal r then interim else transcript r)
            (skipn resultIndex results) "".

Definition onresult (instanceName : InstanceName) (resultIndex : nat)
    (results : list SpeechResult) (s : State) : State :=
  match recognition instanceName s with
  | None => s
  | Some r =>
      let from := lastResultIndex r in
      let s1 := fold_left (result_step instanceName results)
                          (seq from (length results - from)) s in
      let s2 := set_recognition instanceName
                  (Some (mkRecognition (length results))) s1 in
      if instance_eqb instanceName (activeInstance s2) then
        set_transcriptEl
          (finalText s2 ++ "<span style=" ++ Js.dquote ++ "color: #888;" ++ Js.dquote ++ ">"
             ++ interim_of resultIndex results ++ "</span>") s2
      else s2
  end.

(** [onstart] and [onerror] only call [debug]. *)
Definition onstart (instanceName : InstanceName) (s : State) : State := s.

Definition onerror (instanceName : InstanceName) (code : string) (s : State) : State := s.

Definition onend (instanceName : InstanceName) (s : State) : State :=
  match recognition instanceName s with
  | None => s
  | Some _ =>
      if isRecording s && instance_eqb instanceName (activeInstance s) then
        setTimeout (TaskRestart instanceName) (minRestartDelay cfg) s
      else s
  end.

(** The callback [onend] schedules. *)
Definition restart_callback (instanceName : InstanceName) (throws : bool) (s : State) : State :=
  if isRecording s then fst (engine_start instanceName throws s) else s.

(** ** [switchInstances] *)

Definition switchInstances (throws : bool) (s : State) : State :=
  if negb (isRecording s) then s
  else
    let oldInstance := activeInstance s in
    let newInstance := other (activeInstance s) in
    let (s1, ok) := engine_start newInstance throws s in
    if ok then setTimeout (TaskHandoff newInstance oldInstance) (overlapTime cfg) s1
    else s1.

(** The callback [switchInstances] schedules. *)
Definition handoff_callback (newInstance oldInstance : InstanceName) (s : State) : State :=
  let s1 := set_activeInstance newInstance s in
  let s2 := set_instanceSwitches (S (instanceSwitches s1)) s1 in
  engine_stop oldInstance s2.

(** The callback [startRec] hands to [setInterval]. *)
Definition switch_callback (throws : bool) (s : State) : State :=
  if isRecording s then switchInstances throws s else s.

(** ** [startRec], [stopRec], [clearText] *)

Definition startRec (throws : bool) (s : State) : State :=
  let s1 := match recognitionA s with
            | None => set_recognitionA (initRecognition A) s
            | Some _ => s
            end in
  let s2 := match recognitionB s1 with
            | None => set_recognitionB (initRecognition B) s1
            | Some _ => s1
            end in
  let s3 := set_isRecording true s2 in
  let s4 := set_activeInstance A s3 in
  let s5 := set_sessionStartTime (Some (now s4)) s4 in
  let s6 := set_instanceSwitches 0 s5 in
  let (s7, ok) := engine_start A throws s6 in
  if ok then
    let s8 := set_statusEl StatusListening s7 in
    set_switchTimer (Some (nextHandle s8))
      (setInterval TaskSwitch (maxSessionTime cfg) s8)
  else s7.

Definition stopRec (s : State) : State :=
  let s1 := set_isRecording false s in
  let s2 := clearInterval (switchTimer s1) s1 in
  let s3 := engine_stop A s2 in
  let s4 := engine_stop B s3 in
  set_statusEl StatusStopped s4.

Definition clearText (s : State) : State :=
  set_transcriptEl "" (set_wordCount 0 (set_finalText "" s)).

(** ** The event loop *)

Definition run_task (t : Task) (throws : bool) (s : State) : State :=
  match t with
  | TaskSwitch => switch_callback throws s
  | TaskHandoff newInstance oldInstance => handoff_callback newInstance oldInstance s
  | TaskRestart instanceName => restart_callback instanceName throws s
  end.

Definition rearm (h : nat) (t : Timer) : Timer :=
  match every t with
  | Some p => if handle_is h t then mkTimer (handle t) (due t + p) (every t) (task t) else t
  | None => t
  end.

(** The host runs the callback of timer [h]. A timer never runs before it is
    due; a timeout leaves the queue, an interval is armed again. *)
Definition fire (h : nat) (throws : bool) (s : State) : State :=
  match find (handle_is h) (timers s) with
  | None => s
  | Some t =>
      if (now s <? due t)%N then s
      else
        let queue := match every t with
                     | Some _ => map (rearm h) (timers s)
                     | None => filter (fun u => negb (handle_is h u)) (timers s)
                     end in
        run_task (task t) throws (set_timers queue s)
  end.

Definition elapse (dt : N) (s : State) : State := set_now (now s + dt) s.

Inductive Event : Type :=
| CmdStart (throws : bool)
| CmdStop
| CmdClear
| OnStart (x : InstanceName)
| OnResult (x : InstanceName) (resultIndex : nat) (results : list SpeechResult)
| OnError (x : InstanceName) (code : string)
| OnEnd (x : InstanceName)
| Fire (h : nat) (throws : bool)
| Elapse (dt : N).

Definition step (s : State) (e : Event) : State :=
  match e with
  | CmdStart throws => startRec throws s
  | CmdStop => stopRec s
  | CmdClear => clearText s
  | OnStart x => onstart x s
  | OnResult x resultIndex results => onresult x resultIndex results s
  | OnError x code => onerror x code s
  | OnEnd x => onend x s
  | Fire h throws => fire h throws s
  | Elapse dt => elapse dt s
  end.

Definition run (tr : list Event) (s : State) : State := fold_left step tr s.

End Scheduler.

(** * Notions used in the statements *)

(** ** Results and requests *)

(** The final entries met when [instanceName] walks the indices [idxs] of
    [results], in order, as the requests they give rise to. *)
Fixpoint finals_in (instanceName : InstanceName) (results : list SpeechResult)
    (idxs : list nat) : list Forwarded :=
  match idxs with
  | [] => []
  | i :: rest =>
      match nth_error results i with
      | Some r =>
          if isFinal r
          then mkForwarded instanceName i (transcript r) :: finals_in instanceName results rest
          else finals_in instanceName results rest
      | None => finals_in instanceName results rest
      end
  end.

(** The final entries at index [from] and later. *)
Definition pending_finals (instanceName : InstanceName) (from : nat)
    (results : list SpeechResult) : list Forwarded :=
  finals_in instanceName results (seq from (length results - from)).

(** What passes the gate [instanceName === activeInstance]. *)
Definition gated (x : InstanceName) (s : State) (fs : list Forwarded) : list Forwarded :=
  if instance_eqb x (activeInstance s) then fs else [].

(** Each text followed by the separator, as [finalText] receives them. *)
Fixpoint joined (fs : list Forwarded) : string :=
  match fs with
  | [] => ""%string
  | f :: rest => (text f ++ " " ++ joined rest)%string
  end.

(** What the same requests add to [wordCount]. *)
Fixpoint split_lengths (fs : list Forwarded) : nat :=
  match fs with
  | [] => 0
  | f :: rest => length (Js.split_space (text f)) + split_lengths rest
  end.

Definition sent_by (x : InstanceName) (f : Forwarded) : bool := instance_eqb (sender f) x.

(** ** Words *)

Fixpoint count_spaces (str : string) : nat :=
  match str with
  | EmptyString => 0
  | String c rest => (if Ascii.eqb c " "%char then 1 else 0) + count_spaces rest
  end.

(** Space, tab, line feed, vertical tab, form feed, carriage return. *)
Definition is_whitespace (c : ascii) : bool :=
  let n := nat_of_ascii c in
  Nat.eqb n 32 || (Nat.leb 9 n && Nat.leb n 13).

Fixpoint tokens_from (inside : bool) (str : string) : nat :=
  match str with
  | EmptyString => 0
  | String c rest =>
      if is_whitespace c then tokens_from false rest
      else (if inside then 0 else 1) + tokens_from true rest
  end.

(** Following the spec's words, "count of whitespace-delimited tokens in
    text": the number of maximal runs of characters that are not whitespace. *)
Definition whitespace_tokens (str : string) : nat := tokens_from false str.

(** ** Traces *)

(** A facade command other than [clear()]. *)
Inductive Toggle : Type :=
| ToggleStop
| ToggleStart (throws : bool).

Definition toggle_event (c : Toggle) : Event :=
  match c with
  | ToggleStop => CmdStop
  | ToggleStart throws => CmdStart throws
  end.

(** What can happen inside an overlap window without ending it: engine
    callbacks other than [onend], and time passing. *)
Definition window_event (e : Event) : bool :=
  match e with
  | OnStart _ | OnResult _ _ _ | OnError _ _ | Elapse _ => true
  | _ => false
  end.

(** The result lists that [x] delivers along a trace never get shorter,
    starting from length [c]. *)
Fixpoint lengths_grow (x : InstanceName) (c : nat) (tr : list Event) : bool :=
  match tr with
  | [] => true
  | OnResult y _ results :: rest =>
      if instance_eqb y x
      then Nat.leb c (length results) && lengths_grow x (length results) rest
      else lengths_grow x c rest
  | _ :: rest => lengths_grow x c rest
  end.

(** One round of an unexpected end: the instance ends, [minRestartDelay]
    passes, the restart timer runs; [throws] says whether that [start()]
    fails. *)
Definition unexpected_end (cfg : Config) (x : InstanceName) (s : State) (throws : bool) : State :=
  fire cfg (nextHandle s) throws (elapse (minRestartDelay cfg) (onend cfg x s)).

Definition unexpected_ends (cfg : Config) (x : InstanceName) (outcomes : list bool)
    (s : State) : State :=
  fold_left (unexpected_end cfg x) outcomes s.

(** ** Timers *)

(** Every pending timer was handed out before [nextHandle]: what the host's
    counter guarantees. *)
Definition fresh_handles (s : State) : Prop :=
  Forall (fun t => handle t < nextHandle s) (timers s).

(** A session in which an unexpected end of [x] leads to a restart: it is
    recording, [x] is the active instance and its object exists. *)
Definition restartable (x : InstanceName) (s : State) : Prop :=
  fresh_handles s /\ isRecording s = true /\ activeInstance s = x /\
  recognition x s <> None.

(** The callbacks that test [isRecording] before doing anything: the switch
    interval and the restart. The hand-off callback has no such test. *)
Definition guarded_task (t : Task) : bool :=
  match t with
  | TaskSwitch => true
  | TaskRestart _ => true
  | TaskHandoff _ _ => false
  end.

(** The queue once timer [h] has run: an interval is armed again, a timeout
    is gone. *)
Definition queue_after (h : nat) (t : Timer) (s : State) : list Timer :=
  match every t with
  | Some _ => map (rearm h) (timers s)
  | None => filter (fun u => negb (handle_is h u)) (timers s)
  end.

(** ** Sessions used as examples *)

(** Scenario A of the spec: [maxSessionTime] 5000, [overlapTime] 1000. *)
Definition scenarioA : Config :=
  {| maxSessionTime := 5000; overlapTime := 1000; minRestartDelay := 50 |}.

(** [A] is listening and active, nothing heard yet. *)
Definition listening : State := startRec CONFIG true false initial.

(** The overlap window of the first switch: [A] is active, [B] has just been
    started, the hand-off is pending. *)
Definition overlapping : State :=
  run CONFIG true [CmdStart false; Elapse 55000; Fire 0 false] initial.

(** After one completed switch: [B] is active, [A] has been stopped. *)
Definition switched : State :=
  run CONFIG true [Elapse 2000; Fire 1 false] overlapping.

(** The session stopped in the middle of the first overlap window. *)
Definition stopped_in_overlap : State := stopRec overlapping.

(** ** Proof steps *)

Ltac conjuncts := repeat match goal with |- _ /\ _ => split end.

(** Case analysis on everything a handler branches on: [isRecording], the
    two recognition objects, the active instance and the stored handle. *)
Ltac by_cases s :=
  destruct s as [rec ? [?|] [?|] [|] [?|] ? ? ? ? ? ? ? ? ? ?]; destruct rec.

Ltac fresh_by_computation := unfold fresh_handles; vm_compute; repeat constructor.

(** [fresh_handles] after a handler ran on a state taken apart by
    [by_cases]: the queue is as before, has one new timer at its end, or
    has lost some. *)
Ltac fresh_cases :=
  unfold fresh_handles in *; simpl in *;
  first [ assumption
        | apply Forall_app; split;
          [ eapply Forall_impl; [|eassumption]; simpl; intros; lia
          | repeat constructor; simpl; lia ]
        | eapply incl_Forall; [apply incl_filter | assumption] ].

(** * The Python side

    [config.py], [error_handler.py], [server.py], the methods of
    [SpeechHandlerV2] and [GoogleSpeechApp.toggle_recording] of [main.py].
    The logger is not modelled: its calls change nothing that the code
    reads back. *)

Module Py.

(** [str.split(sep)] with a one-character separator: the pieces between
    the separators; the empty string gives one empty piece. *)
Fixpoint split (sep : ascii) (str : string) : list string :=
  match str with
  | EmptyString => [EmptyString]
  | String c rest =>
      if Ascii.eqb c sep then EmptyString :: split sep rest
      else match split sep rest with
           | [] => [String c EmptyString]
           | piece :: pieces => String c piece :: pieces
           end
  end.

(** [sep.join(pieces)] *)
Fixpoint join (sep : ascii) (pieces : list string) : string :=
  match pieces with
  | [] => EmptyString
  | [piece] => piece
  | piece :: rest => (piece ++ String sep (join sep rest))%string
  end.

(** What a configuration holds: the values [json.load] produces, numbers
    restricted to integers. A [dict] is the list of its items in insertion
    order. *)
#[warnings="-register-all"]
Inductive Value : Type :=
| VNone
| VBool (b : bool)
| VInt (n : Z)
| VStr (s : string)
| VList (l : list Value)
| VDict (items : list (string * Value)).

Definition Dict : Type := list (string * Value).

Definition is_dict (v : Value) : bool :=
  match v with VDict _ => true | _ => false end.

(** [d[key]], and [key in d] as [lookup key d <> None]. *)
Fixpoint lookup (key : string) (d : Dict) : option Value :=
  match d with
  | [] => None
  | (k, v) :: rest => if String.eqb k key then Some v else lookup key rest
  end.

(** [d[key] = value]: an existing key keeps its place, a new one goes last. *)
Fixpoint assign (key : string) (value : Value) (d : Dict) : Dict :=
  match d with
  | [] => [(key, value)]
  | (k, v) :: rest =>
      if String.eqb k key then (k, value) :: rest else (k, v) :: assign key value rest
  end.

Definition keys (d : Dict) : list string := map fst d.

End Py.

(** ** [config.py]: class [Config] *)

Module PyConfig.

Import Py.

(** The loop of [Config.get] over the keys still to follow. *)
Fixpoint get_keys (keys : list string) (value default : Value) : Value :=
  match keys with
  | [] => value
  | key :: rest =>
      match value with
      | VDict d =>
          match lookup key d with
          | Some v => get_keys rest v default
          | None => default
          end
      | _ => default
      end
  end.

Definition get (settings : Dict) (key_path : string) (default : Value) : Value :=
  get_keys (split "."%char key_path) (VDict settings) default.

(** The loop of [Config.set] over [keys[:-1]], then [target[keys[-1]] =
    value], on the object [target]; assignments happen in place, so the
    result is [target] as the call leaves it, with whether the call
    returned ([true]) or raised [TypeError] ([false]). Whatever is not a
    [dict] raises: [key not in target] or the item access that follows
    fails on [None], numbers, strings and lists alike. *)
Fixpoint set_keys (init : list string) (last : string) (value target : Value)
    : Value * bool :=
  match init with
  | [] =>
      match target with
      | VDict d => (VDict (assign last value d), true)
      | _ => (target, false)
      end
  | key :: rest =>
      match target with
      | VDict d =>
          let d1 := match lookup key d with
                    | None => assign key (VDict []) d
                    | Some _ => d
                    end in
          match lookup key d1 with
          | Some child =>
              let (child', returned) := set_keys rest last value child in
              (VDict (assign key child' d1), returned)
          | None => (VDict d1, false)
          end
      | _ => (target, false)
      end
  end.

(** [Config.set]: the settings after the call and whether it returned. *)
Definition set (settings : Dict) (key_path : string) (value : Value) : Dict * bool :=
  let keys := split "."%char key_path in
  match set_keys (removelast keys) (List.last keys EmptyString) value (VDict settings) with
  | (VDict d, returned) => (d, returned)
  | (_, returned) => (settings, returned)
  end.

(** [Config._merge_config(base, overrides)], [base] as the call leaves it.
    The recursion is on [overrides]; the inner loop is [for key, value in
    overrides.items()]. *)
Fixpoint merge_value (base : Dict) (overrides : Value) {struct overrides} : Dict :=
  match overrides with
  | VDict items =>
      (fix each (items : Dict) (base : Dict) {struct items} : Dict :=
         match items with
         | [] => base
         | (key, value) :: rest =>
             each rest
               match lookup key base, value with
               | Some (VDict sub), VDict _ => assign key (VDict (merge_value sub value)) base
               | _, _ => assign key value base
               end
         end) items base
  | _ => base
  end.

Definition _merge_config (base overrides : Dict) : Dict :=
  merge_value base (VDict overrides).

(** One turn of the loop of [_merge_config]. *)
Definition merge_item (base : Dict) (key : string) (value : Value) : Dict :=
  match lookup key base, value with
  | Some (VDict sub), VDict _ => assign key (VDict (merge_value sub value)) base
  | _, _ => assign key value base
  end.

(** [Config._load_from_file]: [file] is what [json.load] returned, [None]
    when the file is missing or does not parse. A document that is not an
    object makes [overrides.items()] raise, which the [except] swallows. *)
Definition _load_from_file (settings : Dict) (file : option Value) : Dict :=
  match file with
  | Some (VDict overrides) => _merge_config settings overrides
  | _ => settings
  end.

(** Strict descent along a list of keys, without a default. *)
Fixpoint find_keys (keys : list string) (value : Value) : option Value :=
  match keys with
  | [] => Some value
  | key :: rest =>
      match value with
      | VDict d =>
          match lookup key d with
          | Some v => find_keys rest v
          | None => None
          end
      | _ => None
      end
  end.

(** Python dictionaries have no repeated keys, at any depth. *)
Fixpoint unique_keys (v : Value) : Prop :=
  match v with
  | VDict items =>
      NoDup (map fst items) /\
      (fix all (items : Dict) : Prop :=
         match items with
         | [] => True
         | (_, x) :: rest => unique_keys x /\ all rest
         end) items
  | _ => True
  end.

(** The override document has, somewhere along [keys], a value that takes
    the place of what the settings hold there: a value at the end of the
    path, or a value that is not a dictionary before its end. *)
Fixpoint reaches (keys : list string) (overrides : Value) : bool :=
  match keys, overrides with
  | key :: rest, VDict items =>
      match lookup key items with
      | None => false
      | Some v =>
          match rest with
          | [] => true
          | _ => if is_dict v then reaches rest v else true
          end
      end
  | _, _ => false
  end.

End PyConfig.

(** ** [Config.get] and [Config.set] on objects *)

(** Module [PyConfig] takes the settings as a value, which is what they
    are as long as no dictionary object is stored under two paths.
    [Config.set] stores the object it is given and assigns in place, so
    here the dictionaries are objects of a heap, named by their address,
    and a dictionary holds references. *)
Module PyHeap.

(** What a dictionary holds. Lists are objects as well; neither [get] nor
    [set] looks into one, so only their address is kept. *)
Inductive Val : Type :=
| HNone
| HBool (b : bool)
| HInt (n : Z)
| HStr (s : string)
| HList (address : nat)
| HDict (address : nat).

(** A [dict] object: its items in insertion order. *)
Definition Object : Type := list (string * Val).

(** The [dict] objects, by address. *)
Definition Heap : Type := list Object.

Fixpoint lookup (key : string) (d : Object) : option Val :=
  match d with
  | [] => None
  | (k, v) :: rest => if String.eqb k key then Some v else lookup key rest
  end.

Fixpoint assign (key : string) (value : Val) (d : Object) : Object :=
  match d with
  | [] => [(key, value)]
  | (k, v) :: rest =>
      if String.eqb k key then (k, value) :: rest else (k, v) :: assign key value rest
  end.

(** [d[key]] for the object at [address], [None] when it has no such key. *)
Definition read (h : Heap) (address : nat) (key : string) : option Val :=
  match nth_error h address with
  | Some d => lookup key d
  | None => None
  end.

(** [d[key] = value] on the object at [address], in place. *)
Fixpoint store (address : nat) (key : string) (value : Val) (h : Heap) : Heap :=
  match h, address with
  | [], _ => []
  | d :: rest, O => assign key value d :: rest
  | d :: rest, S address' => d :: store address' key value rest
  end.

(** The loop of [Config.get]. *)
Fixpoint get_keys (h : Heap) (keys : list string) (value default : Val) : Val :=
  match keys with
  | [] => value
  | key :: rest =>
      match value with
      | HDict a =>
          match read h a key with
          | Some v => get_keys h rest v default
          | None => default
          end
      | _ => default
      end
  end.

(** [Config.get], [settings] being the address of [self.settings]. *)
Definition get (h : Heap) (settings : nat) (key_path : string) (default : Val) : Val :=
  get_keys h (Py.split "."%char key_path) (HDict settings) default.

(** The loop of [Config.set] over [keys[:-1]], then [target[keys[-1]] =
    value]: the heap as the call leaves it, and whether the call returned
    ([true]) or raised [TypeError] ([false]). A missing key gets a new,
    empty dictionary, which takes the next free address. *)
Fixpoint set_keys (init : list string) (last : string) (value target : Val) (h : Heap)
    {struct init} : Heap * bool :=
  match target with
  | HDict a =>
      match nth_error h a with
      | None => (h, false)
      | Some d =>
          match init with
          | [] => (store a last value h, true)
          | key :: rest =>
              match lookup key d with
              | Some child => set_keys rest last value child h
              | None =>
                  set_keys rest last value (HDict (length h))
                    (store a key (HDict (length h)) (h ++ [[]]))
              end
          end
      end
  | _ => (h, false)
  end.

Definition set (h : Heap) (settings : nat) (key_path : string) (value : Val)
    : Heap * bool :=
  let keys := Py.split "."%char key_path in
  set_keys (removelast keys) (List.last keys EmptyString) value (HDict settings) h.

(** The one item of an object that existed before the call which
    [Config.set] assigns: the last key of the path in the last dictionary,
    or the first missing key in the dictionary that lacks it (all that
    follows is then new). [None] when the call raises. *)
Fixpoint written (init : list string) (last : string) (target : Val) (h : Heap)
    {struct init} : option (nat * string) :=
  match target with
  | HDict a =>
      match nth_error h a with
      | None => None
      | Some d =>
          match init with
          | [] => Some (a, last)
          | key :: rest =>
              match lookup key d with
              | Some child => written rest last child h
              | None => Some (a, key)
              end
          end
      end
  | _ => None
  end.

Definition written_by_set (h : Heap) (settings : nat) (key_path : string)
    : option (nat * string) :=
  let keys := Py.split "."%char key_path in
  written (removelast keys) (List.last keys EmptyString) (HDict settings) h.

(** Whether [Config.get] reads item [k] of the object at [o] on its way
    along [keys]. *)
Fixpoint reads (h : Heap) (keys : list string) (value : Val) (o : nat) (k : string)
    : bool :=
  match keys with
  | [] => false
  | key :: rest =>
      match value with
      | HDict a =>
          (Nat.eqb a o && String.eqb key k)
          || match read h a key with
             | Some v => reads h rest v o k
             | None => false
             end
      | _ => false
      end
  end.

Definition read_by_get (h : Heap) (settings : nat) (key_path : string)
    (o : nat) (k : string) : bool :=
  reads h (Py.split "."%char key_path) (HDict settings) o k.

(** Every reference to a dictionary names an object of the heap. *)
Definition closed_val (n : nat) (v : Val) : bool :=
  match v with
  | HDict a => Nat.ltb a n
  | _ => true
  end.

Definition closed (h : Heap) : bool :=
  forallb (forallb (fun item : string * Val => closed_val (length h) (snd item))) h.

End PyHeap.

(** ** [error_handler.py]: [ErrorHandler.retry] *)

Module PyRetry.

Section Wrapper.

(** What the wrapped function returns and raises. *)
Variables V E : Type.

(** [isinstance(e, exceptions)] *)
Variable caught : E -> bool.

(** One call of a Python function. *)
Inductive Outcome : Type :=
| Returns (v : V)
| Raises (e : E).

(** How a call of the wrapper ends. [raise last_error] with [last_error]
    still [None] is a [TypeError]; [time.sleep] of a negative length is a
    [ValueError]. *)
Inductive Result : Type :=
| Returned (v : V)
| Raised (e : E)
| RaisedTypeError
| RaisedValueError.

Record Run : Type := mkRun {
  result : Result;
  func_calls : nat;          (* calls of the wrapped function *)
  sleeps : list Z;           (* the arguments of [time.sleep], in order *)
  used_fallback : bool
}.

(** [given or configured] for an optional integer argument: [None] and [0]
    are both false. *)
Definition or_config (given : option Z) (configured : Z) : Z :=
  match given with
  | None => configured
  | Some n => if (n =? 0)%Z then configured else n
  end.

Definition outcome_result (o : Outcome) : Result :=
  match o with
  | Returns v => Returned v
  | Raises e => Raised e
  end.

(** The exception a call raised, if it raised. *)
Definition raised (o : Outcome) : option E :=
  match o with
  | Returns _ => None
  | Raises e => Some e
  end.

Definition sleep_time (retry_delay : Z) (attempt : nat) : Z :=
  (retry_delay * 2 ^ Z.of_nat attempt)%Z.

Section Loop.

(** The outcome of the call made on attempt number [attempt] (the function
    has effects, so calls may differ). *)
Variable func : nat -> Outcome.
Variable attempts retry_delay : Z.

(** The outcome of the call of [fallback], when a fallback is given. *)
Variable fallback : option Outcome.

(** [for attempt in range(attempts)] from [attempt] on, [remaining] turns
    to go, and what follows the loop. *)
Fixpoint attempt_loop (remaining attempt : nat) (last_error : option E)
    (slept : list Z) : Run :=
  match remaining with
  | O =>
      match fallback with
      | Some o => mkRun (outcome_result o) attempt slept true
      | None =>
          mkRun (match last_error with Some e => Raised e | None => RaisedTypeError end)
                attempt slept false
      end
  | S remaining' =>
      match func attempt with
      | Returns v => mkRun (Returned v) (S attempt) slept false
      | Raises e =>
          if caught e then
            if (Z.of_nat attempt <? attempts - 1)%Z then
              if (sleep_time retry_delay attempt <? 0)%Z
              then mkRun RaisedValueError (S attempt) slept false
              else attempt_loop remaining' (S attempt) (Some e)
                     (slept ++ [sleep_time retry_delay attempt])
            else attempt_loop remaining' (S attempt) (Some e) slept
          else mkRun (Raised e) (S attempt) slept false
      end
  end.

End Loop.

(** The wrapper that [retry(max_attempts, delay, exceptions, fallback)]
    puts around a function; [configured_attempts] and [configured_delay]
    are [config.get("error_handling.max_retry_attempts", 3)] and
    [config.get("error_handling.retry_delay", 1)]. Attempts and delays are
    integers, as the defaults are. *)
Definition retry (max_attempts delay : option Z) (configured_attempts configured_delay : Z)
    (fallback : option Outcome) (func : nat -> Outcome) : Run :=
  let attempts := or_config max_attempts configured_attempts in
  let retry_delay := or_config delay configured_delay in
  attempt_loop func attempts retry_delay fallback (Z.to_nat attempts) 0 None [].

(** The sleeps of an exponential backoff that went through [n] failures. *)
Definition backoff (retry_delay : Z) (n : nat) : list Z :=
  map (sleep_time retry_delay) (seq 0 n).

Definition total (l : list Z) : Z := fold_right Z.add 0%Z l.

End Wrapper.

Arguments Returns {V E} v.
Arguments Raises {V E} e.
Arguments Returned {V E} v.
Arguments Raised {V E} e.
Arguments RaisedTypeError {V E}.
Arguments RaisedValueError {V E}.
Arguments raised {V E} o.
Arguments outcome_result {V E} o.
Arguments result {V E} r.
Arguments func_calls {V E} r.
Arguments sleeps {V E} r.
Arguments used_fallback {V E} r.
Arguments mkRun {V E} result func_calls sleeps used_fallback.
Arguments attempt_loop {V E} caught func attempts retry_delay fallback remaining attempt
  last_error slept.
Arguments retry {V E} caught max_attempts delay configured_attempts configured_delay
  fallback func.

End PyRetry.

(** ** [safe_operation], [SpeechHandlerV2], [SpeechServer], the toggle *)

Module PyApp.

(** *** [ErrorHandler.graceful_degradation] and [safe_operation] *)

Section SafeOperation.

(** What the decorated function returns; [None] is Python's [None]. *)
Variable R : Type.

(** The body of the [with] statement, [return func(...)]: the function
    returns, or raises an [Exception]. *)
Inductive Body : Type :=
| BodyReturns (value : option R)
| BodyRaises.

(** How the generator of [graceful_degradation] ends once the exception of
    the body has been thrown into it at its [yield]. *)
Inductive GeneratorEnd : Type :=
| GeneratorReturns (value : option R)
| GeneratorRaises.

Definition graceful_degradation (default_return : option R) (reraise : bool)
    : GeneratorEnd :=
  if reraise then GeneratorRaises else GeneratorReturns default_return.

(** [__exit__] of a [@contextmanager]: a generator that returns after the
    exception was thrown into it swallows the exception; what it returned
    is dropped. *)
Definition exit_swallows (g : GeneratorEnd) : bool :=
  match g with
  | GeneratorReturns _ => true
  | GeneratorRaises => false
  end.

(** How a call of a function ends. *)
Inductive Call : Type :=
| CallReturns (value : option R)
| CallRaises.

(** The wrapper of [safe_operation(operation_name, default_return)]: when
    the exception is swallowed the [with] statement is left normally and
    the wrapper runs off its end. *)
Definition safe_operation (default_return : option R) (body : Body) : Call :=
  match body with
  | BodyReturns value => CallReturns value
  | BodyRaises =>
      if exit_swallows (graceful_degradation default_return false)
      then CallReturns None
      else CallRaises
  end.

End SafeOperation.

Arguments BodyReturns {R} value.
Arguments BodyRaises {R}.
Arguments CallReturns {R} value.
Arguments CallRaises {R}.
Arguments safe_operation {R} default_return body.

(** *** [SpeechHandlerV2] *)

Record Handler : Type := mkHandler {
  is_recording : bool;
  accumulated_text : string
}.

(** The desktop the handler acts on: the clipboard and the key presses
    sent. *)
Record Desktop : Type := mkDesktop {
  clipboard : string;
  keys_sent : list string
}.

(** Whether [pyperclip.copy] and [keyboard.press_and_release] raise in one
    call; a call that raises has had no effect on the desktop. *)
Record Failures : Type := mkFailures {
  copy_raises : bool;
  press_raises : bool
}.

(** The undecorated [process_transcript]. Its [except] turns whatever was
    raised into a [SpeechRecognitionError]. It never returns a value. *)
Definition process_transcript_body (f : Failures) (text : string)
    (h : Handler) (d : Desktop) : Handler * Desktop * Body unit :=
  match text with
  | EmptyString => (h, d, BodyReturns None)
  | _ =>
      if copy_raises f then (h, d, BodyRaises)
      else
        let d1 := mkDesktop text (keys_sent d) in
        if press_raises f then (h, d1, BodyRaises)
        else
          (mkHandler (is_recording h) (accumulated_text h ++ text ++ " ")%string,
           mkDesktop text (keys_sent d ++ ["ctrl+v"%string]),
           BodyReturns None)
  end.

(** [process_transcript] as decorated with
    [@safe_operation("process_transcript")]. *)
Definition process_transcript (f : Failures) (text : string)
    (h : Handler) (d : Desktop) : Handler * Desktop * Call unit :=
  let '(h', d', body) := process_transcript_body f text h d in
  (h', d', safe_operation None body).

Definition toggle_recording (h : Handler) : Handler * bool :=
  (mkHandler (negb (is_recording h)) (accumulated_text h), negb (is_recording h)).

Definition clear_accumulated_text (h : Handler) : Handler :=
  mkHandler (is_recording h) EmptyString.

Definition get_accumulated_text (h : Handler) : string := accumulated_text h.

(** *** [SpeechServer.process_transcript] and [_handle_transcript] *)

(** [SpeechServer.process_transcript]: [processor] is how the call of
    [self.transcript_processor] ended, [None] when no processor is set. *)
Definition server_process_transcript (processor : option (Call unit)) : bool :=
  match processor with
  | None => true
  | Some (CallReturns _) => true
  | Some CallRaises => false
  end.

Inductive Response : Type :=
| Ok200                                   (* 200, body [OK] *)
| ErrorResponse (code : nat) (message : string).

(** [SpeechRequestHandler._handle_transcript] with the server wired as in
    [GoogleSpeechApp.initialize_components]; [text] is
    [params.get('text', [''])[0]]. *)
Definition _handle_transcript (f : Failures) (text : string)
    (h : Handler) (d : Desktop) : Handler * Desktop * Response :=
  match text with
  | EmptyString => (h, d, ErrorResponse 400 "No transcript text provided")
  | _ =>
      let '(h', d', call) := process_transcript f text h d in
      if server_process_transcript (Some call) then (h', d', Ok200)
      else (h', d', ErrorResponse 500 "Failed to process transcript")
  end.

(** One request to [/transcript]. *)
Record Request : Type := mkRequest {
  request_text : string;
  request_failures : Failures
}.

(** A series of requests, with the responses sent. *)
Fixpoint serve (requests : list Request) (h : Handler) (d : Desktop)
    : Handler * Desktop * list Response :=
  match requests with
  | [] => (h, d, [])
  | r :: rest =>
      let '(h1, d1, response) :=
        _handle_transcript (request_failures r) (request_text r) h d in
      let '(h2, d2, responses) := serve rest h1 d1 in
      (h2, d2, response :: responses)
  end.

(** The texts that were pasted: not empty, copied and sent. *)
Definition pasted (r : Request) : bool :=
  match request_text r with
  | EmptyString => false
  | _ => negb (copy_raises (request_failures r)) && negb (press_raises (request_failures r))
  end.

Fixpoint typed (requests : list Request) : string :=
  match requests with
  | [] => EmptyString
  | r :: rest =>
      if pasted r then (request_text r ++ " " ++ typed rest)%string else typed rest
  end.

Definition expected_response (r : Request) : Response :=
  match request_text r with
  | EmptyString => ErrorResponse 400 "No transcript text provided"
  | _ => Ok200
  end.

(** *** [GoogleSpeechApp.toggle_recording] and [TrayIcon._handle_toggle] *)

(** The three copies of the recording flag. *)
Record Flags : Type := mkFlags {
  handler_recording : bool;     (* [speech_handler.is_recording] *)
  server_recording : bool;      (* [server.is_recording] *)
  tray_recording : bool         (* [tray_icon.is_recording] *)
}.

(** Whether the menu update of the tray icon and [webbrowser.open] raise. *)
Record ToggleFailures : Type := mkToggleFailures {
  menu_raises : bool;
  browser_raises : bool
}.

(** [GoogleSpeechApp.toggle_recording], with the tray icon in place: the
    flags after the call and the value returned. *)
Definition app_toggle_recording (f : ToggleFailures) (s : Flags) : Flags * bool :=
  let is_rec := negb (handler_recording s) in
  let s1 := mkFlags is_rec is_rec is_rec in
  if menu_raises f then (s1, false)
  else if is_rec && browser_raises f then (s1, false)
  else (s1, is_rec).

(** [TrayIcon._handle_toggle] with [on_toggle] the method above: the flag
    of the tray takes the value returned, then the menu is updated;
    [menu_update_raises] says whether that update raises. The method is
    decorated with [safe_operation]. *)
Definition _handle_toggle (f : ToggleFailures) (menu_update_raises : bool)
    (s : Flags) : Flags * Call unit :=
  let (s1, returned) := app_toggle_recording f s in
  let s2 := mkFlags (handler_recording s1) (server_recording s1) returned in
  (s2, safe_operation None (if menu_update_raises then BodyRaises else BodyReturns None)).

(** The two ways to toggle: the hot key calls the method of the
    application, the tray menu goes through [_handle_toggle]. *)
Inductive ToggleEvent : Type :=
| Hotkey (f : ToggleFailures)
| TrayClick (f : ToggleFailures) (menu_update_raises : bool).

Definition toggle_step (s : Flags) (e : ToggleEvent) : Flags :=
  match e with
  | Hotkey f => fst (app_toggle_recording f s)
  | TrayClick f menu_update_raises => fst (_handle_toggle f menu_update_raises s)
  end.

Definition toggles (events : list ToggleEvent) (s : Flags) : Flags :=
  fold_left toggle_step events s.

(** The flags as the components are created. *)
Definition flags_at_start : Flags := mkFlags false false false.

End PyApp.

(** ** Traces of the page, continued *)

Definition is_clear (e : Event) : bool :=
  match e with CmdClear => true | _ => false end.

(** [e] is a result callback of [x]. *)
Definition result_of (x : InstanceName) (e : Event) : bool :=
  match e with
  | OnResult y _ _ => instance_eqb y x
  | _ => false
  end.

Definition is_abort (c : EngineCall) : bool :=
  match c with EngineAbort _ => true | _ => false end.

(** The [stop()] calls of [stopRec]: one for each object that exists. *)
Definition stop_calls (s : State) : list EngineCall :=
  (match recognitionA s with Some _ => [EngineStop A] | None => [] end) ++
  (match recognitionB s with Some _ => [EngineStop B] | None => [] end).

(** * Lemmas and theorems *)

(** ** Strings and the result loop *)

Lemma append_nil_r (a : string) : (a ++ "")%string = a.
Proof. induction a as [|c a IH]; simpl; [reflexivity | now rewrite IH]. Qed.

Lemma append_assoc (a b c : string) : ((a ++ b) ++ c)%string = (a ++ b ++ c)%string.
Proof. induction a as [|ch a IH]; simpl; [reflexivity | now rewrite IH]. Qed.

Lemma instance_eqb_eq (x y : InstanceName) : instance_eqb x y = true <-> x = y.
Proof. destruct x, y; simpl; split; intro H; try reflexivity; discriminate H. Qed.

Lemma instance_eqb_refl (x : InstanceName) : instance_eqb x x = true.
Proof. now destruct x. Qed.

Lemma instance_eqb_other (x : InstanceName) : instance_eqb (other x) x = false.
Proof. now destruct x. Qed.

Lemma finals_in_spec (x : InstanceName) (results : list SpeechResult) (idxs : list nat)
    (f : Forwarded) :
  In f (finals_in x results idxs) <->
  sender f = x /\ In (resultIdx f) idxs /\
  nth_error results (resultIdx f) = Some (mkResult (text f) true).
Proof.
  induction idxs as [|i rest IH]; simpl.
  - tauto.
  - destruct (nth_error results i) as [r|] eqn:Hi.
    + destruct r as [t fin]; simpl. destruct fin; simpl.
      * rewrite IH. split.
        -- intros [<- | (Hs & Hin & Hn)]; simpl; auto.
        -- intros (Hs & [-> | Hin] & Hn).
           ++ left. destruct f as [fs fi ft]; simpl in *. subst fs.
              rewrite Hi in Hn. now inversion Hn.
           ++ right. auto.
      * rewrite IH. split.
        -- intros (Hs & Hin & Hn). auto.
        -- intros (Hs & [-> | Hin] & Hn); [rewrite Hi in Hn; discriminate Hn | auto].
    + rewrite IH. split.
      * intros (Hs & Hin & Hn). auto.
      * intros (Hs & [-> | Hin] & Hn); [rewrite Hi in Hn; discriminate Hn | auto].
Qed.

Lemma pending_finals_spec (x : InstanceName) (from : nat) (results : list SpeechResult)
    (f : Forwarded) :
  In f (pending_finals x from results) <->
  sender f = x /\ from <= resultIdx f /\
  nth_error results (resultIdx f) = Some (mkResult (text f) true).
Proof.
  unfold pending_finals. rewrite finals_in_spec, in_seq. split.
  - intros (Hs & Hr & Hn). repeat split; [exact Hs | lia | exact Hn].
  - intros (Hs & Hr & Hn). repeat split; [exact Hs | exact Hr | | exact Hn].
    assert (resultIdx f < length results)
      by (apply nth_error_Some; rewrite Hn; discriminate).
    lia.
Qed.

Lemma finals_in_indices (x : InstanceName) (results : list SpeechResult) (idxs : list nat) :
  NoDup idxs -> NoDup (map resultIdx (finals_in x results idxs)).
Proof.
  induction idxs as [|i rest IH]; simpl; intro Hnd.
  - constructor.
  - inversion Hnd as [|? ? Hnotin Hrest]; subst.
    destruct (nth_error results i) as [r|]; [destruct (isFinal r)|]; simpl; auto.
    constructor; auto.
    intro Hin. apply in_map_iff in Hin. destruct Hin as (f & Hf & Hin).
    apply finals_in_spec in Hin. destruct Hin as (_ & Hin & _).
    rewrite Hf in Hin. contradiction.
Qed.

(** Two states with the same fields are the same state. *)
Lemma state_ext (s s' : State) :
  isRecording s = isRecording s' ->
  finalText s = finalText s' ->
  recognitionA s = recognitionA s' ->
  recognitionB s = recognitionB s' ->
  activeInstance s = activeInstance s' ->
  switchTimer s = switchTimer s' ->
  sessionStartTime s = sessionStartTime s' ->
  wordCount s = wordCount s' ->
  instanceSwitches s = instanceSwitches s' ->
  now s = now s' ->
  nextHandle s = nextHandle s' ->
  timers s = timers s' ->
  calls s = calls s' ->
  sink s = sink s' ->
  statusEl s = statusEl s' ->
  transcriptEl s = transcriptEl s' ->
  s = s'.
Proof. destruct s, s'; simpl; intros; subst; reflexivity. Qed.

Section Loop.

Variable instanceName : InstanceName.
Variable results : list SpeechResult.

Lemma loop_inactive (idxs : list nat) (s : State) :
  instance_eqb instanceName (activeInstance s) = false ->
  fold_left (result_step instanceName results) idxs s = s.
Proof.
  intro Hoff. induction idxs as [|i rest IH]; simpl; [reflexivity|].
  unfold result_step at 2.
  destruct (nth_error results i) as [r|]; [destruct (isFinal r)|]; rewrite ?Hoff; exact IH.
Qed.

Lemma loop_active (idxs : list nat) (s : State) :
  instance_eqb instanceName (activeInstance s) = true ->
  fold_left (result_step instanceName results) idxs s =
  set_sink (sink s ++ finals_in instanceName results idxs)
    (set_wordCount (wordCount s + split_lengths (finals_in instanceName results idxs))
       (set_finalText (finalText s ++ joined (finals_in instanceName results idxs)) s)).
Proof.
  revert s. induction idxs as [|i rest IH]; intros s Hon; simpl.
  - apply state_ext; simpl; try reflexivity.
    + now rewrite append_nil_r.
    + now rewrite Nat.add_0_r.
    + now rewrite app_nil_r.
  - unfold result_step at 2.
    destruct (nth_error results i) as [r|]; [destruct (isFinal r)|]; rewrite ?Hon;
      try (apply IH; exact Hon).
    rewrite IH by (simpl; exact Hon).
    apply state_ext; simpl; try reflexivity.
    + now rewrite !append_assoc.
    + now rewrite Nat.add_assoc.
    + now rewrite <- app_assoc.
Qed.

End Loop.

(** ** What one [onresult] callback does *)

Lemma onresult_effect (x : InstanceName) (resultIndex : nat) (results : list SpeechResult)
    (s : State) (r : Recognition) :
  recognition x s = Some r ->
  let s' := onresult x resultIndex results s in
  let added := gated x s (pending_finals x (lastResultIndex r) results) in
  sink s' = sink s ++ added /\
  finalText s' = (finalText s ++ joined added)%string /\
  wordCount s' = wordCount s + split_lengths added /\
  recognition x s' = Some (mkRecognition (length results)) /\
  recognition (other x) s' = recognition (other x) s /\
  isRecording s' = isRecording s /\
  activeInstance s' = activeInstance s /\
  instanceSwitches s' = instanceSwitches s /\
  timers s' = timers s /\
  nextHandle s' = nextHandle s /\
  now s' = now s /\
  calls s' = calls s /\
  switchTimer s' = switchTimer s.
Proof.
  intros Hrec. unfold onresult, gated, pending_finals. rewrite Hrec.
  destruct (instance_eqb x (activeInstance s)) eqn:Hgate.
  - rewrite loop_active by exact Hgate.
    destruct x, s; simpl in *; rewrite Hgate; simpl; repeat split; reflexivity.
  - rewrite loop_inactive by exact Hgate.
    destruct x, s; simpl in *; rewrite Hgate; simpl;
      rewrite ?app_nil_r, ?append_nil_r, ?Nat.add_0_r; repeat split; reflexivity.
Qed.

Lemma onresult_absent (x : InstanceName) (resultIndex : nat) (results : list SpeechResult)
    (s : State) :
  recognition x s = None -> onresult x resultIndex results s = s.
Proof. intro H. unfold onresult. now rewrite H. Qed.

(** ** Word counting *)

Lemma split_space_length (str : string) :
  length (Js.split_space str) = S (count_spaces str).
Proof.
  induction str as [|c rest IH]; simpl; [reflexivity|].
  destruct (Ascii.eqb c " "%char); simpl.
  - now rewrite IH.
  - destruct (Js.split_space rest); simpl in *; [discriminate IH | exact IH].
Qed.

(** One new final from the active instance: the buffer receives the text and
    a space, the word count one more than the number of spaces in the text. *)
Lemma final_counted_by_spaces (x : InstanceName) (resultIndex : nat) (t : string)
    (s : State) (r : Recognition) :
  recognition x s = Some r ->
  lastResultIndex r = 0 ->
  x = activeInstance s ->
  finalText (onresult x resultIndex [mkResult t true] s) = (finalText s ++ t ++ " ")%string /\
  wordCount (onresult x resultIndex [mkResult t true] s) = wordCount s + S (count_spaces t).
Proof.
  intros Hr H0 Hact.
  destruct (onresult_effect x resultIndex [mkResult t true] s r Hr) as (_ & Ht & Hw & _).
  unfold gated, pending_finals in Ht, Hw.
  rewrite <- Hact, instance_eqb_refl, H0 in Ht, Hw. simpl in Ht, Hw.
  rewrite Ht, Hw, split_space_length, Nat.add_0_r. split; reflexivity.
Qed.

(** C9: the buffer grows by the text and one separator, but [wordCount]
    grows by the number of pieces of [transcript.split(' ')], which is not
    the number of whitespace-delimited tokens: a final [" hello world"] from
    the active instance counts 3 for 2 tokens, and an empty final counts 1
    for none. *)
Theorem wordCount_counts_split_pieces :
  let s1 := onresult A 0 [mkResult " hello world" true] listening in
  let s2 := onresult A 0 [mkResult "" true] listening in
  finalText s1 = (finalText listening ++ " hello world" ++ " ")%string /\
  wordCount s1 = wordCount listening + 3 /\
  whitespace_tokens " hello world" = 2 /\
  finalText s2 = (finalText listening ++ "" ++ " ")%string /\
  wordCount s2 = wordCount listening + 1 /\
  whitespace_tokens "" = 0.
Proof. vm_compute. repeat split; reflexivity. Qed.

(** ** The gate *)

(** C2: the code loses a final of the active instance. [A] is active and
    recording; the engine delivers entry [0] first as interim and then as
    final, as it does with [interimResults] on. The first callback moves
    the cursor of [A] to [1], past the entry, so the final is neither
    appended nor forwarded although [A] is the active instance. The same
    final delivered without the interim callback before it is appended
    and forwarded. *)
Theorem active_final_lost_after_interim :
  let s := onresult A 0 [mkResult "hel" false] listening in
  let s' := onresult A 0 [mkResult "hello" true] s in
  activeInstance s = A /\ isRecording s = true /\
  cursor A listening = 0 /\ cursor A s = 1 /\
  finalText s' = finalText s /\ wordCount s' = wordCount s /\
  sink s' = sink s /\ sink s' = [] /\
  sink (onresult A 0 [mkResult "hello" true] listening) = [mkForwarded A 0 "hello"] /\
  finalText (onresult A 0 [mkResult "hello" true] listening) = "hello "%string.
Proof. vm_compute. repeat split; reflexivity. Qed.

(** What the gate does, cursor included: a callback of instance [x]
    appends to the buffer and forwards to the sink exactly the final
    entries of its result list that sit at or after the cursor of [x], and
    only when [x] is the active instance; a final from the other instance
    is never appended and never forwarded. *)
Theorem active_instance_gate (x : InstanceName) (resultIndex : nat)
    (results : list SpeechResult) (s : State) (r : Recognition) :
  recognition x s = Some r ->
  let s' := onresult x resultIndex results s in
  exists added : list Forwarded,
    sink s' = sink s ++ added /\
    finalText s' = (finalText s ++ joined added)%string /\
    forall f : Forwarded,
      In f added <->
      x = activeInstance s /\ sender f = x /\
      lastResultIndex r <= resultIdx f /\
      nth_error results (resultIdx f) = Some (mkResult (text f) true).
Proof.
  intros Hrec s'.
  destruct (onresult_effect x resultIndex results s r Hrec) as (Hsink & Htext & _).
  exists (gated x s (pending_finals x (lastResultIndex r) results)).
  split; [exact Hsink|]. split; [exact Htext|].
  intro f. unfold gated.
  destruct (instance_eqb x (activeInstance s)) eqn:Hgate.
  - apply instance_eqb_eq in Hgate. rewrite pending_finals_spec. tauto.
  - split; [intros []|].
    intros (Heq & _). apply instance_eqb_eq in Heq. congruence.
Qed.

Lemma active_instance_gate_witness :
  exists added : list Forwarded,
    sink (onresult A 0 [mkResult "hello" true] listening) = sink listening ++ added /\
    finalText (onresult A 0 [mkResult "hello" true] listening)
      = (finalText listening ++ joined added)%string /\
    forall f : Forwarded,
      In f added <->
      A = activeInstance listening /\ sender f = A /\
      lastResultIndex (mkRecognition 0) <= resultIdx f /\
      nth_error [mkResult "hello" true] (resultIdx f) = Some (mkResult (text f) true).
Proof.
  apply (active_instance_gate A 0 [mkResult "hello" true] listening (mkRecognition 0)).
  reflexivity.
Defined.

(** ** What the commands keep *)

Section Commands.

Variable cfg : Config.
Variable speechApi : bool.

Lemma startRec_transcript (throws : bool) (s : State) :
  finalText (startRec cfg speechApi throws s) = finalText s /\
  wordCount (startRec cfg speechApi throws s) = wordCount s.
Proof. by_cases s; destruct speechApi, throws; split; reflexivity. Qed.

Lemma stopRec_transcript (s : State) :
  finalText (stopRec s) = finalText s /\ wordCount (stopRec s) = wordCount s.
Proof. by_cases s; split; reflexivity. Qed.

Lemma startRec_resets (throws : bool) (s : State) :
  isRecording (startRec cfg speechApi throws s) = true /\
  activeInstance (startRec cfg speechApi throws s) = A /\
  instanceSwitches (startRec cfg speechApi throws s) = 0 /\
  sessionStartTime (startRec cfg speechApi throws s) = Some (now s).
Proof. by_cases s; destruct speechApi, throws; repeat split; reflexivity. Qed.

End Commands.

(** C10: no sequence of [stop()] and [start()] calls changes [finalText] or
    [wordCount]; [clear()] sets them to the empty text and zero; every
    [start()] sets the switch counter to 0 and the active instance to [A]. *)
Theorem transcript_kept_by_stop_and_start (cfg : Config) (speechApi : bool) :
  (forall (cmds : list Toggle) (s : State),
      finalText (run cfg speechApi (map toggle_event cmds) s) = finalText s /\
      wordCount (run cfg speechApi (map toggle_event cmds) s) = wordCount s) /\
  (forall s : State,
      finalText (clearText s) = ""%string /\ wordCount (clearText s) = 0 /\
      isRecording (clearText s) = isRecording s /\
      activeInstance (clearText s) = activeInstance s) /\
  (forall (throws : bool) (s : State),
      instanceSwitches (startRec cfg speechApi throws s) = 0 /\
      activeInstance (startRec cfg speechApi throws s) = A).
Proof.
  split; [|split].
  - induction cmds as [|c cmds IH]; intro s; [split; reflexivity|].
    change (run cfg speechApi (map toggle_event (c :: cmds)) s)
      with (run cfg speechApi (map toggle_event cmds)
              (step cfg speechApi s (toggle_event c))).
    destruct (IH (step cfg speechApi s (toggle_event c))) as [Ht Hw].
    rewrite Ht, Hw. destruct c as [|throws].
    + apply stopRec_transcript.
    + apply startRec_transcript.
  - intro s. repeat split; reflexivity.
  - intros throws s. destruct (startRec_resets cfg speechApi throws s) as (_ & Ha & Hs & _).
    split; assumption.
Qed.

(** ** Timer handles *)

Lemma handle_is_below (h : nat) (l : list Timer) :
  Forall (fun t => handle t < h) l ->
  forall t, In t l -> handle_is h t = false.
Proof.
  intros Hall t Hin. rewrite Forall_forall in Hall.
  unfold handle_is. apply Nat.eqb_neq. specialize (Hall t Hin). lia.
Qed.

Lemma find_below (h : nat) (l l' : list Timer) :
  Forall (fun t => handle t < h) l ->
  find (handle_is h) (l ++ l') = find (handle_is h) l'.
Proof.
  induction l as [|u l IH]; intro Hall; simpl; [reflexivity|].
  inversion Hall as [|? ? Hu Hl]; subst.
  rewrite (handle_is_below h (u :: l) Hall u (or_introl eq_refl)). now apply IH.
Qed.

Lemma filter_below (h : nat) (l : list Timer) :
  Forall (fun t => handle t < h) l ->
  filter (fun u => negb (handle_is h u)) l = l.
Proof.
  induction l as [|u l IH]; intro Hall; simpl; [reflexivity|].
  inversion Hall as [|? ? Hu Hl]; subst.
  rewrite (handle_is_below h (u :: l) Hall u (or_introl eq_refl)). simpl.
  now rewrite IH.
Qed.

Lemma rearm_handle (h : nat) (t : Timer) : handle (rearm h t) = handle t.
Proof. unfold rearm. destruct (every t); [destruct (handle_is h t)|]; reflexivity. Qed.

Lemma fresh_filter (n : nat) (p : Timer -> bool) (l : list Timer) :
  Forall (fun u => handle u < n) l -> Forall (fun u => handle u < n) (filter p l).
Proof.
  rewrite !Forall_forall. intros Hl u Hin. apply filter_In in Hin. apply Hl, Hin.
Qed.

Lemma fresh_rearm (n h : nat) (l : list Timer) :
  Forall (fun u => handle u < n) l -> Forall (fun u => handle u < n) (map (rearm h) l).
Proof.
  rewrite !Forall_forall. intros Hl u Hin. apply in_map_iff in Hin.
  destruct Hin as (v & <- & Hv). rewrite rearm_handle. now apply Hl.
Qed.

Lemma run_task_fresh (cfg : Config) (t : Task) (throws : bool) (s : State) :
  fresh_handles s -> fresh_handles (run_task cfg t throws s).
Proof.
  intro Hf. destruct t as [|n o|i]; by_cases s; destruct throws;
    try destruct n; try destruct o; try destruct i; fresh_cases.
Qed.

Lemma step_fresh (cfg : Config) (speechApi : bool) (e : Event) (s : State) :
  fresh_handles s -> fresh_handles (step cfg speechApi s e).
Proof.
  intro Hf. destruct e as [throws| | |y|y ri rs|y code|y|h throws|dt]; simpl.
  - by_cases s; destruct speechApi, throws; fresh_cases.
  - by_cases s; fresh_cases.
  - exact Hf.
  - exact Hf.
  - destruct (recognition y s) as [r|] eqn:Hr.
    + destruct (onresult_effect y ri rs s r Hr)
        as (_ & _ & _ & _ & _ & _ & _ & _ & Ht & Hn & _).
      unfold fresh_handles. now rewrite Ht, Hn.
    + now rewrite onresult_absent.
  - exact Hf.
  - by_cases s; destruct y; fresh_cases.
  - unfold fire. destruct (find (handle_is h) (timers s)) as [t|]; [|exact Hf].
    destruct (now s <? due t)%N; [exact Hf|].
    apply run_task_fresh. unfold fresh_handles in *. simpl.
    destruct (every t); [apply fresh_rearm | apply fresh_filter]; exact Hf.
  - exact Hf.
Qed.

(** The host never hands out a handle twice: [fresh_handles] holds of the
    page as loaded and after every run of the script. *)
Lemma reachable_fresh (cfg : Config) (speechApi : bool) (tr : list Event) :
  fresh_handles (run cfg speechApi tr initial).
Proof.
  assert (H : forall s, fresh_handles s -> fresh_handles (run cfg speechApi tr s)).
  { induction tr as [|e tr IH]; intros s Hs; [exact Hs|].
    apply (IH (step cfg speechApi s e)), step_fresh, Hs. }
  apply H. constructor.
Qed.

(** ** An instance that is not active ends *)

Lemma onend_inactive (cfg : Config) (x : InstanceName) (s : State) :
  instance_eqb x (activeInstance s) = false -> onend cfg x s = s.
Proof.
  intro Hoff. unfold onend. destruct (recognition x s); [|reflexivity].
  now rewrite Hoff, andb_false_r.
Qed.

(** C8, as stated, fails: [B] ends during the overlap window, while
    recording, and nothing is scheduled for it. Its [start()] is not called
    again: not before the hand-off, not after the hand-off has made it the
    active instance, and not by the next switch either, which starts [A]. *)
Lemma inactive_end_counterexample :
  isRecording overlapping = true /\
  activeInstance overlapping = A /\
  calls overlapping = [EngineStart A false; EngineStart B false] /\
  timers overlapping =
    [mkTimer 0 110000 (Some 55000%N) TaskSwitch; mkTimer 1 57000 None (TaskHandoff B A)] /\
  onend CONFIG B overlapping = overlapping /\
  activeInstance (run CONFIG true [OnEnd B; Elapse 2000; Fire 1 false] overlapping) = B /\
  timers (run CONFIG true [OnEnd B; Elapse 2000; Fire 1 false] overlapping)
    = [mkTimer 0 110000 (Some 55000%N) TaskSwitch] /\
  calls (run CONFIG true
           [OnEnd B; Elapse 2000; Fire 1 false; Elapse 53000; Fire 0 false] overlapping)
    = [EngineStart A false; EngineStart B false; EngineStop A; EngineStart A false].
Proof. vm_compute. repeat split; reflexivity. Qed.

(** C8 (amended): when the instance that is not the active one emits
    [onend], the handler schedules nothing and calls nothing: the session
    state is left as it was, recording or not. *)
Theorem inactive_end_is_ignored (cfg : Config) (x : InstanceName) (s : State) :
  x <> activeInstance s -> onend cfg x s = s.
Proof.
  intro Hne. apply onend_inactive.
  destruct (instance_eqb x (activeInstance s)) eqn:E; [|reflexivity].
  apply instance_eqb_eq in E. contradiction.
Qed.

Lemma inactive_end_is_ignored_witness : onend CONFIG B overlapping = overlapping.
Proof.
  apply (inactive_end_is_ignored CONFIG B overlapping).
  vm_compute. discriminate.
Defined.

(** ** [start()] while recording *)

(** C6, as stated, fails: the session is recording with [B] active and one
    switch counted; [start()] puts [A] back as the active instance, zeroes
    the counter and arms a second switch interval next to the first. *)
Lemma start_while_recording_counterexample :
  isRecording switched = true /\
  activeInstance switched = B /\
  instanceSwitches switched = 1 /\
  timers switched = [mkTimer 0 110000 (Some 55000%N) TaskSwitch] /\
  activeInstance (startRec CONFIG true false switched) = A /\
  instanceSwitches (startRec CONFIG true false switched) = 0 /\
  timers (startRec CONFIG true false switched) =
    [mkTimer 0 110000 (Some 55000%N) TaskSwitch; mkTimer 2 112000 (Some 55000%N) TaskSwitch].
Proof. vm_compute. repeat split; reflexivity. Qed.

(** C6 (amended): [start()] does not look at [isRecording]. On every call it
    sets [isRecording], makes [A] the active instance, zeroes the switch
    counter and calls [A.start()]; when that call returns normally it arms a
    new switch interval and stores its handle, cancelling none of the
    pending timers; when the call throws, the timers are left as they are. *)
Theorem start_has_no_recording_guard (cfg : Config) (speechApi : bool)
    (throws : bool) (s : State) :
  let s' := startRec cfg speechApi throws s in
  let created := match recognitionA s with Some _ => true | None => speechApi end in
  let armed := created && negb throws in
  isRecording s' = true /\
  activeInstance s' = A /\
  instanceSwitches s' = 0 /\
  calls s' = (if created then calls s ++ [EngineStart A throws] else calls s) /\
  timers s' =
    (if armed
     then timers s ++ [mkTimer (nextHandle s) (now s + maxSessionTime cfg)
                         (Some (maxSessionTime cfg)) TaskSwitch]
     else timers s) /\
  switchTimer s' = (if armed then Some (nextHandle s) else switchTimer s).
Proof.
  by_cases s; destruct speechApi, throws; repeat split; reflexivity.
Qed.

(** ** Firing a timer *)

Section Firing.

Variable cfg : Config.

Lemma fire_early (h : nat) (throws : bool) (s : State) (t : Timer) :
  find (handle_is h) (timers s) = Some t ->
  (now s < due t)%N ->
  fire cfg h throws s = s.
Proof.
  intros Hf Hlt. unfold fire. rewrite Hf.
  apply N.ltb_lt in Hlt. now rewrite Hlt.
Qed.

Lemma fire_timeout (h : nat) (throws : bool) (s : State) (t : Timer) :
  find (handle_is h) (timers s) = Some t ->
  every t = None ->
  (due t <= now s)%N ->
  fire cfg h throws s =
  run_task cfg (task t) throws
    (set_timers (filter (fun u => negb (handle_is h u)) (timers s)) s).
Proof.
  intros Hf He Hle. unfold fire. rewrite Hf, He.
  apply N.ltb_ge in Hle. now rewrite Hle.
Qed.

(** An unexpected end of the active instance, followed to the moment its
    restart timer runs: the instance is started again and nothing else
    moves but the clock and the handle counter. *)
Lemma restart_after_end (x : InstanceName) (throws : bool) (dt : N) (s : State) :
  fresh_handles s ->
  isRecording s = true ->
  activeInstance s = x ->
  recognition x s <> None ->
  (minRestartDelay cfg <= dt)%N ->
  fire cfg (nextHandle s) throws (elapse dt (onend cfg x s)) =
  set_calls (calls s ++ [EngineStart x throws])
    (set_nextHandle (S (nextHandle s)) (set_now (now s + dt) s)).
Proof.
  intros Hfresh Hrec Hact Hex Hdt.
  assert (Hq : onend cfg x s = setTimeout (TaskRestart x) (minRestartDelay cfg) s).
  { unfold onend. destruct (recognition x s); [|contradiction].
    now rewrite Hrec, <- Hact, instance_eqb_refl. }
  rewrite Hq.
  rewrite (fire_timeout (nextHandle s) throws _
             (mkTimer (nextHandle s) (now s + minRestartDelay cfg) None (TaskRestart x))).
  - simpl. rewrite filter_app, (filter_below _ _ Hfresh). simpl.
    unfold handle_is at 1. simpl. rewrite Nat.eqb_refl. simpl.
    unfold restart_callback, engine_start. simpl. rewrite Hrec.
    destruct x; simpl in *; destruct s; simpl in *;
      (destruct recognitionA0 + destruct recognitionB0); try contradiction;
      simpl; rewrite app_nil_r; reflexivity.
  - simpl. rewrite (find_below _ _ _ Hfresh). simpl.
    unfold handle_is. simpl. now rewrite Nat.eqb_refl.
  - reflexivity.
  - simpl. lia.
Qed.

Lemma restart_not_before (x : InstanceName) (throws : bool) (dt : N) (s : State) :
  fresh_handles s ->
  isRecording s = true ->
  activeInstance s = x ->
  recognition x s <> None ->
  (dt < minRestartDelay cfg)%N ->
  fire cfg (nextHandle s) throws (elapse dt (onend cfg x s)) = elapse dt (onend cfg x s).
Proof.
  intros Hfresh Hrec Hact Hex Hdt.
  apply (fire_early _ _ _
           (mkTimer (nextHandle s) (now s + minRestartDelay cfg) None (TaskRestart x))).
  - unfold onend. destruct (recognition x s); [|contradiction].
    rewrite Hrec, <- Hact, instance_eqb_refl. simpl.
    rewrite (find_below _ _ _ Hfresh). simpl.
    unfold handle_is. simpl. now rewrite Nat.eqb_refl.
  - unfold onend. destruct (recognition x s); [|contradiction].
    rewrite Hrec, <- Hact, instance_eqb_refl. simpl. lia.
Qed.

End Firing.

(** ** Unexpected end of the active instance *)

(** C7: the active instance reports an error and then ends while the
    session is recording. The restart is due [minRestartDelay] later: its
    timer does nothing before that, and once the delay has passed it calls
    [start()] on the same instance; [instanceSwitches] and [activeInstance]
    are what they were. It holds for every error code, ['aborted'] or not:
    [onerror] changes no state. *)
Theorem active_end_restarts_same_instance (cfg : Config) (speechApi : bool)
    (x : InstanceName) (code : string) (throws : bool) (s : State) :
  fresh_handles s ->
  isRecording s = true ->
  activeInstance s = x ->
  recognition x s <> None ->
  let s1 := run cfg speechApi [OnError x code; OnEnd x] s in
  timers s1 =
    timers s ++ [mkTimer (nextHandle s) (now s + minRestartDelay cfg) None (TaskRestart x)] /\
  (forall dt : N, (dt < minRestartDelay cfg)%N ->
     run cfg speechApi [Elapse dt; Fire (nextHandle s) throws] s1
       = run cfg speechApi [Elapse dt] s1) /\
  (forall dt : N, (minRestartDelay cfg <= dt)%N ->
     let s2 := run cfg speechApi [Elapse dt; Fire (nextHandle s) throws] s1 in
     calls s2 = calls s ++ [EngineStart x throws] /\
     instanceSwitches s2 = instanceSwitches s /\
     activeInstance s2 = activeInstance s /\
     isRecording s2 = true /\
     timers s2 = timers s).
Proof.
  intros Hfresh Hrec Hact Hex. simpl. unfold onerror.
  split; [|split].
  - unfold onend. destruct (recognition x s); [|contradiction].
    now rewrite Hrec, <- Hact, instance_eqb_refl.
  - intros dt Hdt. now apply restart_not_before.
  - intros dt Hdt. rewrite restart_after_end by assumption.
    simpl. auto.
Qed.

Lemma active_end_restarts_same_instance_witness :
  calls (run CONFIG true
           [OnError A "network"; OnEnd A; Elapse 50; Fire 1 false] listening)
    = [EngineStart A false; EngineStart A false] /\
  instanceSwitches
    (run CONFIG true [OnError A "network"; OnEnd A; Elapse 50; Fire 1 false] listening) = 0 /\
  activeInstance
    (run CONFIG true [OnError A "network"; OnEnd A; Elapse 50; Fire 1 false] listening) = A.
Proof.
  assert (Hfresh : fresh_handles listening) by fresh_by_computation.
  assert (Hex : recognition A listening <> None) by (vm_compute; discriminate).
  destruct (active_end_restarts_same_instance CONFIG true A "network" false listening
              Hfresh eq_refl eq_refl Hex) as (_ & _ & Hlate).
  destruct (Hlate 50%N (N.le_refl _)) as (Hc & Hs & Ha & _).
  vm_compute in Hc, Hs, Ha. vm_compute.
  split; [exact Hc|]. split; [exact Hs | exact Ha].
Defined.

(** ** Repeated unexpected ends *)

Section Restarts.

Variable cfg : Config.

Lemma unexpected_end_round (x : InstanceName) (throws : bool) (s : State) :
  restartable x s ->
  let s1 := unexpected_end cfg x s throws in
  restartable x s1 /\
  calls s1 = calls s ++ [EngineStart x throws] /\
  instanceSwitches s1 = instanceSwitches s /\
  timers s1 = timers s.
Proof.
  intros (Hfresh & Hrec & Hact & Hex). unfold unexpected_end.
  rewrite restart_after_end by (assumption || apply N.le_refl).
  cbv zeta. unfold restartable. conjuncts; try reflexivity; try assumption.
  unfold fresh_handles in *. simpl. eapply Forall_impl; [|exact Hfresh].
  simpl. intros. lia.
Qed.

Lemma unexpected_ends_restartable (x : InstanceName) (outcomes : list bool) (s : State) :
  restartable x s -> restartable x (unexpected_ends cfg x outcomes s).
Proof.
  revert s. induction outcomes as [|throws rest IH]; intros s Hs; [exact Hs|].
  change (unexpected_ends cfg x (throws :: rest) s)
    with (unexpected_ends cfg x rest (unexpected_end cfg x s throws)).
  apply IH. now apply unexpected_end_round.
Qed.

End Restarts.

(** C5, as stated, fails: there is no number of consecutive unexpected ends
    after which the session is stopped. Here every restart of [A] succeeds
    and [A] ends again at once; after 1000 rounds [start()] has been called
    1000 more times and the session is still recording. *)
Lemma bounded_restart_counterexample :
  ~ (exists bound : nat, forall n : nat, bound < n ->
       isRecording (unexpected_ends CONFIG A (repeat false n) listening) = false) /\
  isRecording (unexpected_ends CONFIG A (repeat false 1000) listening) = true /\
  length (calls (unexpected_ends CONFIG A (repeat false 1000) listening)) = 1001.
Proof.
  assert (Hstart : restartable A listening).
  { split; [fresh_by_computation|]. split; [reflexivity|]. split; [reflexivity|].
    vm_compute. discriminate. }
  split; [|split].
  - intros [bound Hall]. specialize (Hall (S bound) (Nat.lt_succ_diag_r _)).
    destruct (unexpected_ends_restartable CONFIG A (repeat false (S bound)) listening Hstart)
      as (_ & Hrec & _).
    rewrite Hrec in Hall. discriminate Hall.
  - vm_compute. reflexivity.
  - vm_compute. reflexivity.
Qed.

(** C5 (amended): every unexpected end of the active instance while
    recording is answered by one restart of that instance, however many
    came before and whether or not the restarts succeed; the session keeps
    recording, with the same active instance and switch count. Nothing
    bounds the number of restarts and nothing escalates. *)
Theorem restarts_are_unbounded (cfg : Config) (x : InstanceName)
    (outcomes : list bool) (s : State) :
  fresh_handles s ->
  isRecording s = true ->
  activeInstance s = x ->
  recognition x s <> None ->
  let s' := unexpected_ends cfg x outcomes s in
  isRecording s' = true /\
  calls s' = calls s ++ map (EngineStart x) outcomes /\
  activeInstance s' = x /\
  instanceSwitches s' = instanceSwitches s /\
  timers s' = timers s.
Proof.
  intros Hfresh Hrec Hact Hex.
  assert (Hs : restartable x s) by (repeat split; assumption).
  clear Hfresh Hrec Hact Hex. revert s Hs.
  induction outcomes as [|throws rest IH]; intros s Hs; cbv zeta.
  - destruct Hs as (_ & Hrec & Hact & _). simpl. rewrite app_nil_r. auto.
  - change (unexpected_ends cfg x (throws :: rest) s)
      with (unexpected_ends cfg x rest (unexpected_end cfg x s throws)).
    destruct (unexpected_end_round cfg x throws s Hs) as (Hs1 & Hc1 & Hn1 & Ht1).
    destruct (IH _ Hs1) as (Ha & Hb & Hc & Hd & He).
    rewrite Ha, Hb, Hc, Hd, He, Hc1, Hn1, Ht1. simpl. rewrite <- app_assoc. auto.
Qed.

Lemma restarts_are_unbounded_witness :
  isRecording (unexpected_ends CONFIG A [true; true; false] listening) = true /\
  calls (unexpected_ends CONFIG A [true; true; false] listening)
    = calls listening ++ map (EngineStart A) [true; true; false].
Proof.
  assert (Hfresh : fresh_handles listening) by fresh_by_computation.
  assert (Hex : recognition A listening <> None) by (vm_compute; discriminate).
  destruct (restarts_are_unbounded CONFIG A [true; true; false] listening
              Hfresh eq_refl eq_refl Hex) as (Hrec & Hcalls & _).
  vm_compute in Hrec, Hcalls. vm_compute.
  split; [exact Hrec | exact Hcalls].
Defined.

(** ** [stop()] and the timers *)

Lemma stopRec_timers (s : State) (t : Timer) :
  In t (timers (stopRec s)) <-> In t (timers s) /\ Some (handle t) <> switchTimer s.
Proof.
  assert (Hq : timers (stopRec s) = timers (clearInterval (switchTimer s) s))
    by (by_cases s; reflexivity).
  rewrite Hq. unfold clearInterval. destruct (switchTimer s) as [h|]; simpl.
  - rewrite filter_In. unfold handle_is. rewrite negb_true_iff, Nat.eqb_neq.
    split; intros [Hin Hh]; (split; [exact Hin|]); congruence.
  - split; [intro Hin; split; [exact Hin | discriminate] | tauto].
Qed.

Lemma stopRec_session (s : State) :
  isRecording (stopRec s) = false /\
  activeInstance (stopRec s) = activeInstance s /\
  instanceSwitches (stopRec s) = instanceSwitches s.
Proof. by_cases s; repeat split; reflexivity. Qed.

Lemma fire_guarded_when_stopped (cfg : Config) (h : nat) (throws : bool)
    (s : State) (t : Timer) :
  isRecording s = false ->
  find (handle_is h) (timers s) = Some t ->
  guarded_task (task t) = true ->
  set_timers [] (fire cfg h throws s) = set_timers [] s.
Proof.
  intros Hrec Hf Hg. unfold fire. rewrite Hf.
  destruct (now s <? due t)%N; [reflexivity|].
  destruct (task t); try discriminate Hg; simpl;
    unfold switch_callback, restart_callback; simpl; rewrite Hrec;
    destruct s; reflexivity.
Qed.

(** C4, as stated, fails: [stop()] during the overlap window leaves the
    hand-off timer pending, and when it runs, after [stop()] has returned,
    it flips [activeInstance] and increments the switch counter. A pending
    restart timer is not cancelled by [stop()] either. *)
Lemma stop_timers_counterexample :
  isRecording stopped_in_overlap = false /\
  timers stopped_in_overlap = [mkTimer 1 57000 None (TaskHandoff B A)] /\
  activeInstance stopped_in_overlap = A /\
  instanceSwitches stopped_in_overlap = 0 /\
  activeInstance (run CONFIG true [Elapse 2000; Fire 1 false] stopped_in_overlap) = B /\
  instanceSwitches (run CONFIG true [Elapse 2000; Fire 1 false] stopped_in_overlap) = 1 /\
  timers (run CONFIG true [OnEnd A; CmdStop] listening)
    = [mkTimer 1 50 None (TaskRestart A)].
Proof. vm_compute. repeat split; reflexivity. Qed.

(** C4 (amended): [stop()] clears [isRecording] and cancels the timer whose
    handle is stored in [switchTimer], and no other: every other pending
    timer stays in the queue. It changes neither [activeInstance] nor the
    switch counter. While the session is not recording, a switch-interval
    or restart callback that still runs changes nothing but the timer
    queue: no instance is started, [activeInstance] and the switch counter
    stay. *)
Theorem stop_cancels_switch_interval_only (cfg : Config) :
  (forall s : State,
     isRecording (stopRec s) = false /\
     activeInstance (stopRec s) = activeInstance s /\
     instanceSwitches (stopRec s) = instanceSwitches s /\
     forall t : Timer,
       In t (timers (stopRec s)) <-> In t (timers s) /\ Some (handle t) <> switchTimer s) /\
  (forall (s : State) (h : nat) (throws : bool) (t : Timer),
     isRecording s = false ->
     find (handle_is h) (timers s) = Some t ->
     guarded_task (task t) = true ->
     set_timers [] (fire cfg h throws s) = set_timers [] s).
Proof.
  split.
  - intro s. destruct (stopRec_session s) as (H1 & H2 & H3).
    split; [exact H1|]. split; [exact H2|]. split; [exact H3|].
    intro t. apply stopRec_timers.
  - intros s h throws t. apply fire_guarded_when_stopped.
Qed.

Lemma stop_cancels_switch_interval_only_witness :
  set_timers [] (fire CONFIG 1 false
                   (elapse 50 (run CONFIG true [OnEnd A; CmdStop] listening)))
  = set_timers [] (elapse 50 (run CONFIG true [OnEnd A; CmdStop] listening)).
Proof.
  apply (proj2 (stop_cancels_switch_interval_only CONFIG)
           (elapse 50 (run CONFIG true [OnEnd A; CmdStop] listening)) 1 false
           (mkTimer 1 50 None (TaskRestart A))).
  - reflexivity.
  - reflexivity.
  - reflexivity.
Defined.

(** ** The proactive switch *)

Section Switch.

Variable cfg : Config.
Variable speechApi : bool.

Lemma recognition_cases (x y : InstanceName) : y = x \/ y = other x.
Proof. destruct x, y; auto. Qed.

Lemma window_step (e : Event) (s : State) :
  window_event e = true ->
  let s' := step cfg speechApi s e in
  timers s' = timers s /\ nextHandle s' = nextHandle s /\
  isRecording s' = isRecording s /\ activeInstance s' = activeInstance s /\
  instanceSwitches s' = instanceSwitches s /\ calls s' = calls s /\
  (now s <= now s')%N /\
  (forall y, recognition y s <> None -> recognition y s' <> None).
Proof.
  destruct e as [| | |x|x ri rs|x code|x| |dt]; simpl; try discriminate; intros _.
  - unfold onstart. conjuncts; auto using N.le_refl.
  - destruct (recognition x s) as [r|] eqn:Hr.
    + destruct (onresult_effect x ri rs s r Hr)
        as (_ & _ & _ & Hx & Ho & H1 & H2 & H3 & H4 & H5 & H6 & H7 & _).
      conjuncts; try assumption.
      * rewrite H6. apply N.le_refl.
      * intros y Hy. destruct (recognition_cases x y) as [-> | ->].
        -- rewrite Hx. discriminate.
        -- now rewrite Ho.
    + rewrite onresult_absent by exact Hr. conjuncts; auto using N.le_refl.
  - unfold onerror. conjuncts; auto using N.le_refl.
  - unfold elapse. conjuncts; try reflexivity.
    + simpl. lia.
    + intros y Hy. destruct y; exact Hy.
Qed.

Lemma window_frame (w : list Event) (s : State) :
  forallb window_event w = true ->
  let s' := run cfg speechApi w s in
  timers s' = timers s /\ nextHandle s' = nextHandle s /\
  isRecording s' = isRecording s /\ activeInstance s' = activeInstance s /\
  instanceSwitches s' = instanceSwitches s /\ calls s' = calls s /\
  (now s <= now s')%N /\
  (forall y, recognition y s <> None -> recognition y s' <> None).
Proof.
  revert s. induction w as [|e w IH]; intros s Hw; simpl.
  - conjuncts; auto using N.le_refl.
  - simpl in Hw. apply andb_true_iff in Hw. destruct Hw as [He Hw].
    destruct (window_step e s He) as (A1 & A2 & A3 & A4 & A5 & A6 & A7 & A8).
    destruct (IH (step cfg speechApi s e) Hw) as (B1 & B2 & B3 & B4 & B5 & B6 & B7 & B8).
    unfold run in *.
    rewrite B1, B2, B3, B4, B5, B6. conjuncts; auto.
    eapply N.le_trans; eassumption.
Qed.

Lemma queue_after_fresh (h : nat) (t : Timer) (s : State) :
  fresh_handles s ->
  Forall (fun u => handle u < nextHandle s) (queue_after h t s).
Proof.
  unfold fresh_handles, queue_after. intro Hfresh. rewrite Forall_forall in *.
  destruct (every t).
  - intros u Hin. apply in_map_iff in Hin. destruct Hin as (v & <- & Hv).
    rewrite rearm_handle. now apply Hfresh.
  - intros u Hin. apply filter_In in Hin. apply Hfresh, Hin.
Qed.

Lemma switch_tick (h : nat) (t : Timer) (x : InstanceName) (s : State) :
  isRecording s = true ->
  activeInstance s = x ->
  recognition (other x) s <> None ->
  find (handle_is h) (timers s) = Some t ->
  task t = TaskSwitch ->
  (due t <= now s)%N ->
  fire cfg h false s =
  setTimeout (TaskHandoff (other x) x) (overlapTime cfg)
    (set_calls (calls s ++ [EngineStart (other x) false])
       (set_timers (queue_after h t s) s)).
Proof.
  intros Hrec Hact Hex Hf Htask Hdue. unfold fire. rewrite Hf.
  apply N.ltb_ge in Hdue. rewrite Hdue, Htask. fold (queue_after h t s).
  simpl. unfold switch_callback, switchInstances. simpl. rewrite Hrec. simpl.
  rewrite Hact. unfold engine_start.
  destruct x; simpl in *; destruct s; simpl in *;
    (destruct recognitionA0 + destruct recognitionB0); try contradiction;
    reflexivity.
Qed.

Lemma handoff_fires (hh : nat) (throws : bool) (x y : InstanceName) (d : N)
    (q : list Timer) (s : State) :
  timers s = q ++ [mkTimer hh d None (TaskHandoff y x)] ->
  Forall (fun u => handle u < hh) q ->
  recognition x s <> None ->
  (d <= now s)%N ->
  let s' := fire cfg hh throws s in
  activeInstance s' = y /\
  instanceSwitches s' = S (instanceSwitches s) /\
  calls s' = calls s ++ [EngineStop x].
Proof.
  intros Ht Hq Hex Hd.
  assert (Hf : find (handle_is hh) (timers s) = Some (mkTimer hh d None (TaskHandoff y x))).
  { rewrite Ht, (find_below _ _ _ Hq). simpl. unfold handle_is. simpl.
    now rewrite Nat.eqb_refl. }
  simpl. rewrite (fire_timeout cfg hh throws s _ Hf eq_refl Hd). simpl.
  unfold handoff_callback, engine_stop.
  destruct x; simpl in *; destruct s; simpl in *;
    (destruct recognitionA0 + destruct recognitionB0); try contradiction;
    simpl; repeat split; reflexivity.
Qed.

Lemma handoff_waits (hh : nat) (throws : bool) (x y : InstanceName) (d : N)
    (q : list Timer) (s : State) :
  timers s = q ++ [mkTimer hh d None (TaskHandoff y x)] ->
  Forall (fun u => handle u < hh) q ->
  (now s < d)%N ->
  fire cfg hh throws s = s.
Proof.
  intros Ht Hq Hd.
  apply (fire_early cfg hh throws s (mkTimer hh d None (TaskHandoff y x))); [|exact Hd].
  rewrite Ht, (find_below _ _ _ Hq). simpl. unfold handle_is. simpl.
  now rewrite Nat.eqb_refl.
Qed.

End Switch.

(** C1: the code loses a final that [A] delivers in the overlap window.
    The switch timer has run, [B] has been started and the hand-off is
    pending, so [A] is still the active instance. The engine delivers
    entry [0] of [A] first as interim and then as final, as it does with
    [interimResults] on: the first callback moves the cursor of [A] past
    the entry, and the final is neither appended nor forwarded. The same
    final delivered without the interim callback before it is appended
    and forwarded. *)
Theorem overlap_final_lost_after_interim :
  let s1 := onresult A 0 [mkResult "good" false] overlapping in
  let s2 := onresult A 0 [mkResult "good morning" true] s1 in
  isRecording s2 = true /\
  activeInstance s2 = A /\
  instanceSwitches s2 = 0 /\
  timers s2 =
    [mkTimer 0 110000 (Some 55000%N) TaskSwitch; mkTimer 1 57000 None (TaskHandoff B A)] /\
  calls overlapping = [EngineStart A false; EngineStart B false] /\
  cursor A overlapping = 0 /\ cursor A s1 = 1 /\
  finalText s2 = finalText overlapping /\
  sink s2 = sink overlapping /\
  sink (onresult A 0 [mkResult "good morning" true] overlapping)
    = sink overlapping ++ [mkForwarded A 0 "good morning"] /\
  finalText (onresult A 0 [mkResult "good morning" true] overlapping)
    = (finalText overlapping ++ "good morning ")%string.
Proof. vm_compute. repeat split; reflexivity. Qed.

(** The switch protocol, cursor included: the session is recording with
    [x] active and the switch timer is due. When it runs and [start()] of the
    other instance does not throw, that instance has been started and the
    hand-off is queued for [overlapTime] later. Through any engine
    callbacks short of [onend] and any passing of time after that: [x]
    stays active and the switch counter stays; a callback of [x] appends
    and forwards every final entry at or after the cursor of [x]; a
    callback of the other instance appends and forwards nothing; the
    hand-off does nothing before its time, and at its time it makes the
    other instance active, adds exactly one to the switch counter and calls
    [stop()] on [x]. *)
Theorem proactive_switch (cfg : Config) (speechApi : bool) (x : InstanceName)
    (h : nat) (t : Timer) (s : State) :
  fresh_handles s ->
  isRecording s = true ->
  activeInstance s = x ->
  recognition x s <> None ->
  recognition (other x) s <> None ->
  find (handle_is h) (timers s) = Some t ->
  task t = TaskSwitch ->
  (due t <= now s)%N ->
  let s1 := fire cfg h false s in
  let hh := nextHandle s in
  calls s1 = calls s ++ [EngineStart (other x) false] /\
  find (handle_is hh) (timers s1)
    = Some (mkTimer hh (now s + overlapTime cfg) None (TaskHandoff (other x) x)) /\
  forall w : list Event,
    forallb window_event w = true ->
    let s2 := run cfg speechApi w s1 in
    activeInstance s2 = x /\
    instanceSwitches s2 = instanceSwitches s /\
    (forall resultIndex results,
       sink (onresult x resultIndex results s2)
         = sink s2 ++ pending_finals x (cursor x s2) results /\
       finalText (onresult x resultIndex results s2)
         = (finalText s2 ++ joined (pending_finals x (cursor x s2) results))%string) /\
    (forall resultIndex results,
       sink (onresult (other x) resultIndex results s2) = sink s2 /\
       finalText (onresult (other x) resultIndex results s2) = finalText s2) /\
    (forall throws, (now s2 < now s + overlapTime cfg)%N ->
       fire cfg hh throws s2 = s2) /\
    (forall throws, (now s + overlapTime cfg <= now s2)%N ->
       let s3 := fire cfg hh throws s2 in
       activeInstance s3 = other x /\
       instanceSwitches s3 = S (instanceSwitches s) /\
       calls s3 = calls s2 ++ [EngineStop x]).
Proof.
  intros Hfresh Hrec Hact Hx Hy Hf Htask Hdue s1 hh.
  assert (Hs1 : s1 = setTimeout (TaskHandoff (other x) x) (overlapTime cfg)
                       (set_calls (calls s ++ [EngineStart (other x) false])
                          (set_timers (queue_after h t s) s)))
    by (apply switch_tick; assumption).
  pose proof (queue_after_fresh h t s Hfresh) as Hq.
  assert (Ht1 : timers s1 = queue_after h t s
                  ++ [mkTimer hh (now s + overlapTime cfg) None (TaskHandoff (other x) x)])
    by (rewrite Hs1; reflexivity).
  split; [rewrite Hs1; reflexivity|].
  split.
  { rewrite Ht1, (find_below _ _ _ Hq). simpl. unfold handle_is. simpl.
    unfold hh. now rewrite Nat.eqb_refl. }
  intros w Hw s2.
  destruct (window_frame cfg speechApi w s1 Hw) as (W1 & W2 & W3 & W4 & W5 & W6 & W7 & W8).
  fold s2 in W1, W2, W3, W4, W5, W6, W7, W8.
  assert (Hact2 : activeInstance s2 = x) by (rewrite W4, Hs1; exact Hact).
  assert (Hx2 : recognition x s2 <> None).
  { apply W8. rewrite Hs1. destruct x; exact Hx. }
  split; [exact Hact2|].
  split; [rewrite W5, Hs1; reflexivity|].
  split; [|split; [|split]].
  - intros resultIndex results. unfold cursor.
    destruct (recognition x s2) as [r|] eqn:Hr; [|contradiction].
    destruct (onresult_effect x resultIndex results s2 r Hr) as (E1 & E2 & _).
    unfold gated in E1, E2. rewrite Hact2, instance_eqb_refl in E1, E2.
    split; assumption.
  - intros resultIndex results.
    destruct (recognition (other x) s2) as [r|] eqn:Hr.
    + destruct (onresult_effect (other x) resultIndex results s2 r Hr) as (E1 & E2 & _).
      unfold gated in E1, E2. rewrite Hact2, instance_eqb_other in E1, E2.
      rewrite app_nil_r in E1. simpl in E2. rewrite append_nil_r in E2.
      split; assumption.
    + rewrite onresult_absent by exact Hr. split; reflexivity.
  - intros throws Hnow.
    apply (handoff_waits cfg hh throws x (other x) (now s + overlapTime cfg)
             (queue_after h t s)); [now rewrite W1 | exact Hq | exact Hnow].
  - intros throws Hnow.
    destruct (handoff_fires cfg hh throws x (other x) (now s + overlapTime cfg)
                (queue_after h t s) s2) as (F1 & F2 & F3);
      [now rewrite W1 | exact Hq | exact Hx2 | exact Hnow |].
    simpl. rewrite F1, F2, F3, W5, Hs1. repeat split; reflexivity.
Qed.

Lemma proactive_switch_witness :
  let s := run scenarioA true [CmdStart false; Elapse 5000] initial in
  let s1 := fire scenarioA 0 false s in
  let s2 := run scenarioA true
              [OnResult A 0 [mkResult "one" true];
               OnResult B 0 [mkResult "one" true]; Elapse 1000] s1 in
  calls s1 = calls s ++ [EngineStart B false] /\
  activeInstance s2 = A /\
  instanceSwitches s2 = 0 /\
  activeInstance (fire scenarioA 1 false s2) = B /\
  instanceSwitches (fire scenarioA 1 false s2) = 1 /\
  calls (fire scenarioA 1 false s2) = calls s2 ++ [EngineStop A].
Proof.
  intros s s1 s2.
  assert (Hfresh : fresh_handles s) by fresh_by_computation.
  assert (Hx : recognition A s <> None) by (vm_compute; discriminate).
  assert (Hy : recognition (other A) s <> None) by (vm_compute; discriminate).
  assert (Hdue : (due (mkTimer 0 5000 (Some 5000%N) TaskSwitch) <= now s)%N)
    by (vm_compute; discriminate).
  destruct (proactive_switch scenarioA true A 0 (mkTimer 0 5000 (Some 5000%N) TaskSwitch) s
              Hfresh eq_refl eq_refl Hx Hy eq_refl eq_refl Hdue)
    as (Hcalls & _ & Hwin).
  destruct (Hwin [OnResult A 0 [mkResult "one" true];
                  OnResult B 0 [mkResult "one" true]; Elapse 1000] eq_refl)
    as (Ha & Hs & _ & _ & _ & Hflip).
  assert (Hnow : (now s + overlapTime scenarioA
                  <= now (run scenarioA true
                            [OnResult A 0 [mkResult "one" true];
                             OnResult B 0 [mkResult "one" true]; Elapse 1000]
                            (fire scenarioA 0 false s)))%N)
    by (vm_compute; discriminate).
  destruct (Hflip false Hnow) as (F1 & F2 & F3).
  split; [exact Hcalls|]. split; [exact Ha|]. split; [exact Hs|].
  split; [exact F1|]. split; [exact F2 | exact F3].
Defined.

(** ** The result cursor *)

Lemma forallb_filter_nil' {T : Type} (p : T -> bool) (l : list T) :
  forallb (fun a => negb (p a)) l = true -> filter p l = [].
Proof.
  induction l as [|a l IH]; simpl; [reflexivity|].
  intro H. apply andb_true_iff in H. destruct H as [Ha Hl].
  apply negb_true_iff in Ha. rewrite Ha. now apply IH.
Qed.

Section Cursor.

Variable cfg : Config.
Variable speechApi : bool.

Lemma run_task_quiet (t : Task) (throws : bool) (s : State) :
  sink (run_task cfg t throws s) = sink s /\
  forall x, recognition x (run_task cfg t throws s) = recognition x s.
Proof.
  destruct t as [|n o|i]; by_cases s; destruct throws;
    try destruct n; try destruct o; try destruct i;
    (split; [reflexivity | intros x; destruct x; reflexivity]).
Qed.

Lemma step_not_result (e : Event) (s : State) :
  (forall y ri rs, e <> OnResult y ri rs) ->
  sink (step cfg speechApi s e) = sink s /\
  forall x r, recognition x s = Some r -> recognition x (step cfg speechApi s e) = Some r.
Proof.
  intro Hne. destruct e as [throws| | |y|y ri rs|y code|y|h throws|dt]; simpl.
  - split.
    + by_cases s; destruct speechApi, throws; reflexivity.
    + intros x r Hr. by_cases s; destruct speechApi, throws, x;
        try discriminate Hr; exact Hr.
  - split.
    + by_cases s; reflexivity.
    + intros x r Hr. by_cases s; destruct x; exact Hr.
  - split; [reflexivity|]. intros x r Hr. destruct x; exact Hr.
  - split; [reflexivity|]. intros x r Hr. exact Hr.
  - exfalso. exact (Hne y ri rs eq_refl).
  - split; [reflexivity|]. intros x r Hr. exact Hr.
  - split.
    + by_cases s; destruct y; reflexivity.
    + intros x r Hr. by_cases s; destruct x, y; exact Hr.
  - unfold fire. destruct (find (handle_is h) (timers s)) as [t|]; [|auto].
    destruct (now s <? due t)%N; [auto|].
    destruct (run_task_quiet (task t) throws
                (set_timers
                   match every t with
                   | Some _ => map (rearm h) (timers s)
                   | None => filter (fun u => negb (handle_is h u)) (timers s)
                   end s)) as [Hs Hr].
    split; [rewrite Hs; reflexivity|].
    intros x r Hx. rewrite Hr. destruct x; exact Hx.
  - split; [reflexivity|]. intros x r Hr. destruct x; exact Hr.
Qed.

Lemma step_other_result (x y : InstanceName) (ri : nat) (rs : list SpeechResult)
    (s : State) (r : Recognition) :
  instance_eqb y x = false ->
  recognition x s = Some r ->
  recognition x (onresult y ri rs s) = Some r /\
  exists added, sink (onresult y ri rs s) = sink s ++ added /\
                filter (sent_by x) added = [].
Proof.
  intros Hyx Hr.
  assert (Hx : x = other y) by (destruct x, y; simpl in *; congruence).
  destruct (recognition y s) as [ry|] eqn:Hy.
  - destruct (onresult_effect y ri rs s ry Hy) as (E1 & _ & _ & _ & E5 & _).
    split; [rewrite Hx, E5, <- Hx; exact Hr|].
    eexists. split; [exact E1|].
    unfold gated. destruct (instance_eqb y (activeInstance s)); [|reflexivity].
    apply forallb_filter_nil'.
    apply forallb_forall. intros f Hin. apply pending_finals_spec in Hin.
    destruct Hin as (Hs & _). unfold sent_by. rewrite Hs, Hyx. reflexivity.
  - rewrite onresult_absent by exact Hy. split; [exact Hr|].
    exists []. split; [now rewrite app_nil_r | reflexivity].
Qed.

Lemma run_app (tr1 tr2 : list Event) (s : State) :
  run cfg speechApi (tr1 ++ tr2) s = run cfg speechApi tr2 (run cfg speechApi tr1 s).
Proof. apply fold_left_app. Qed.

Lemma pending_indices (x : InstanceName) (from : nat) (results : list SpeechResult) :
  NoDup (map resultIdx (pending_finals x from results)).
Proof. apply finals_in_indices, seq_NoDup. Qed.

Lemma gated_indices (x : InstanceName) (s : State) (from : nat)
    (results : list SpeechResult) :
  NoDup (map resultIdx (filter (sent_by x) (gated x s (pending_finals x from results)))) /\
  forall f, In f (filter (sent_by x) (gated x s (pending_finals x from results))) ->
            from <= resultIdx f < length results.
Proof.
  assert (Hall : filter (sent_by x) (pending_finals x from results)
                 = pending_finals x from results).
  { apply forallb_filter_id, forallb_forall. intros f Hin.
    apply pending_finals_spec in Hin. destruct Hin as (Hs & _).
    unfold sent_by. rewrite Hs. apply instance_eqb_refl. }
  unfold gated. destruct (instance_eqb x (activeInstance s)).
  - rewrite Hall. split; [apply pending_indices|].
    intros f Hin. apply pending_finals_spec in Hin. destruct Hin as (_ & Hfrom & Hn).
    split; [exact Hfrom|]. apply nth_error_Some. rewrite Hn. discriminate.
  - simpl. split; [constructor | intros f []].
Qed.

Variable x : InstanceName.

(** Along a trace in which the result lists of [x] do not shrink, the cursor
    of [x] only moves forward, and the requests [x] issues carry pairwise
    distinct result indices, all between the old and the new cursor. *)
Lemma run_processed (tr : list Event) :
  forall (s : State) (r : Recognition),
    recognition x s = Some r ->
    lengths_grow x (lastResultIndex r) tr = true ->
    exists (r' : Recognition) (added : list Forwarded),
      recognition x (run cfg speechApi tr s) = Some r' /\
      lastResultIndex r <= lastResultIndex r' /\
      sink (run cfg speechApi tr s) = sink s ++ added /\
      NoDup (map resultIdx (filter (sent_by x) added)) /\
      forall f, In f (filter (sent_by x) added) ->
                lastResultIndex r <= resultIdx f < lastResultIndex r'.
Proof.
  induction tr as [|e tr IH]; intros s r Hr Hg.
  - exists r, []. simpl. rewrite app_nil_r. conjuncts; auto.
    + constructor.
    + intros f [].
  - change (run cfg speechApi (e :: tr) s)
      with (run cfg speechApi tr (step cfg speechApi s e)).
    assert (Hquiet : (forall y ri rs, e <> OnResult y ri rs) ->
                     lengths_grow x (lastResultIndex r) tr = true ->
                     exists r' added,
                       recognition x (run cfg speechApi tr (step cfg speechApi s e)) = Some r' /\
                       lastResultIndex r <= lastResultIndex r' /\
                       sink (run cfg speechApi tr (step cfg speechApi s e)) = sink s ++ added /\
                       NoDup (map resultIdx (filter (sent_by x) added)) /\
                       forall f, In f (filter (sent_by x) added) ->
                                 lastResultIndex r <= resultIdx f < lastResultIndex r').
    { intros Hne Hg'. destruct (step_not_result e s Hne) as [Hs Hk].
      destruct (IH _ r (Hk x r Hr) Hg') as (r' & added & I1 & I2 & I3 & I4 & I5).
      exists r', added. rewrite I3, Hs. conjuncts; auto. }
    destruct e as [throws| | |y|y ri rs|y code|y|h throws|dt];
      try (apply Hquiet; [intros; discriminate | exact Hg]).
    clear Hquiet. simpl in Hg. simpl step.
    destruct (instance_eqb y x) eqn:Hyx.
    + apply instance_eqb_eq in Hyx. subst y.
      apply andb_true_iff in Hg. destruct Hg as [Hle Hg]. apply Nat.leb_le in Hle.
      destruct (onresult_effect x ri rs s r Hr) as (E1 & _ & _ & E4 & _).
      destruct (IH _ _ E4 Hg) as (r' & added & I1 & I2 & I3 & I4 & I5).
      simpl in I2, I5.
      destruct (gated_indices x s (lastResultIndex r) rs) as [G1 G2].
      exists r', (gated x s (pending_finals x (lastResultIndex r) rs) ++ added).
      rewrite I3, E1, <- app_assoc, filter_app, map_app.
      conjuncts; auto.
      * lia.
      * apply NoDup_app; auto.
        intros a Ha Hb. apply in_map_iff in Ha, Hb.
        destruct Ha as (f & <- & Hf). destruct Hb as (g & Heq & Hgin).
        specialize (G2 f Hf). specialize (I5 g Hgin). lia.
      * intros f Hin. apply in_app_iff in Hin. destruct Hin as [Hin | Hin].
        -- specialize (G2 f Hin). lia.
        -- specialize (I5 f Hin). lia.
    + destruct (step_other_result x y ri rs s r Hyx Hr) as (K1 & added1 & K2 & K3).
      destruct (IH _ r K1 Hg) as (r' & added & I1 & I2 & I3 & I4 & I5).
      exists r', (added1 ++ added).
      rewrite I3, K2, <- app_assoc, filter_app, K3. simpl.
      conjuncts; auto.
Qed.

Lemma lengths_grow_split (tr1 tr2 : list Event) :
  forall (s : State) (r : Recognition),
    recognition x s = Some r ->
    lengths_grow x (lastResultIndex r) (tr1 ++ tr2) = true ->
    lengths_grow x (lastResultIndex r) tr1 = true /\
    exists r1, recognition x (run cfg speechApi tr1 s) = Some r1 /\
               lengths_grow x (lastResultIndex r1) tr2 = true.
Proof.
  induction tr1 as [|e tr1 IH]; intros s r Hr Hg.
  - split; [reflexivity|]. exists r. split; assumption.
  - change (run cfg speechApi (e :: tr1) s)
      with (run cfg speechApi tr1 (step cfg speechApi s e)).
    assert (Hquiet : (forall y ri rs, e <> OnResult y ri rs) ->
                     lengths_grow x (lastResultIndex r) (tr1 ++ tr2) = true ->
                     lengths_grow x (lastResultIndex r) tr1 = true /\
                     exists r1,
                       recognition x (run cfg speechApi tr1 (step cfg speechApi s e)) = Some r1 /\
                       lengths_grow x (lastResultIndex r1) tr2 = true).
    { intros Hne Hg'. destruct (step_not_result e s Hne) as [_ Hk].
      exact (IH _ r (Hk x r Hr) Hg'). }
    destruct e as [throws| | |y|y ri rs|y code|y|h throws|dt];
      try (simpl lengths_grow; apply Hquiet; [intros; discriminate | exact Hg]).
    clear Hquiet. simpl in Hg. simpl lengths_grow. simpl step.
    destruct (instance_eqb y x) eqn:Hyx.
    + apply instance_eqb_eq in Hyx. subst y.
      apply andb_true_iff in Hg. destruct Hg as [Hle Hg].
      destruct (onresult_effect x ri rs s r Hr) as (_ & _ & _ & E4 & _).
      destruct (IH _ _ E4 Hg) as (I1 & r1 & I2 & I3). simpl in I1.
      rewrite Hle, I1. split; [reflexivity|]. exists r1. split; assumption.
    + destruct (step_other_result x y ri rs s r Hyx Hr) as (K1 & _).
      exact (IH _ r K1 Hg).
Qed.

End Cursor.

(** ** The transcript and the word count *)

Section Transcript.

Variable cfg : Config.
Variable speechApi : bool.

Lemma joined_app (a b : list Forwarded) :
  joined (a ++ b) = (joined a ++ joined b)%string.
Proof.
  induction a as [|f a IH]; simpl; [reflexivity|].
  now rewrite IH, !append_assoc.
Qed.

Lemma split_lengths_app (a b : list Forwarded) :
  split_lengths (a ++ b) = split_lengths a + split_lengths b.
Proof. induction a as [|f a IH]; simpl; [reflexivity | rewrite IH; lia]. Qed.

Lemma run_task_text (t : Task) (throws : bool) (s : State) :
  finalText (run_task cfg t throws s) = finalText s /\
  wordCount (run_task cfg t throws s) = wordCount s.
Proof.
  destruct t as [|n o|i]; by_cases s; destruct throws;
    try destruct n; try destruct o; try destruct i; split; reflexivity.
Qed.

Lemma step_keeps_text (e : Event) (s : State) :
  is_clear e = false ->
  (forall y ri rs, e <> OnResult y ri rs) ->
  finalText (step cfg speechApi s e) = finalText s /\
  wordCount (step cfg speechApi s e) = wordCount s.
Proof.
  intros Hc Hne. destruct e as [throws| | |y|y ri rs|y code|y|h throws|dt]; simpl.
  - by_cases s; destruct speechApi, throws; split; reflexivity.
  - by_cases s; split; reflexivity.
  - discriminate Hc.
  - split; reflexivity.
  - exfalso. exact (Hne y ri rs eq_refl).
  - split; reflexivity.
  - by_cases s; destruct y; split; reflexivity.
  - unfold fire. destruct (find (handle_is h) (timers s)) as [t|]; [|auto].
    destruct (now s <? due t)%N; [auto|].
    apply (run_task_text (task t) throws
             (set_timers
                match every t with
                | Some _ => map (rearm h) (timers s)
                | None => filter (fun u => negb (handle_is h u)) (timers s)
                end s)).
  - split; reflexivity.
Qed.

(** What one event other than [clear()] adds to the sink, to the buffer
    and to the word count. *)
Lemma step_text (e : Event) (s : State) :
  is_clear e = false ->
  exists a1 : list Forwarded,
    sink (step cfg speechApi s e) = sink s ++ a1 /\
    finalText (step cfg speechApi s e) = (finalText s ++ joined a1)%string /\
    wordCount (step cfg speechApi s e) = wordCount s + split_lengths a1.
Proof.
  intro He.
  assert (Hquiet : (forall y ri rs, e <> OnResult y ri rs) ->
            exists a1,
              sink (step cfg speechApi s e) = sink s ++ a1 /\
              finalText (step cfg speechApi s e) = (finalText s ++ joined a1)%string /\
              wordCount (step cfg speechApi s e) = wordCount s + split_lengths a1).
  { intro Hne. exists [].
    destruct (step_not_result cfg speechApi e s Hne) as [Hs _].
    destruct (step_keeps_text e s He Hne) as [Hf Hw].
    rewrite Hs, Hf, Hw. simpl. rewrite app_nil_r, append_nil_r, Nat.add_0_r. auto. }
  destruct e as [throws| | |y|y ri rs|y code|y|h throws|dt];
    try (apply Hquiet; intros; discriminate).
  clear Hquiet. simpl step. destruct (recognition y s) as [r|] eqn:Hr.
  - destruct (onresult_effect y ri rs s r Hr) as (E1 & E2 & E3 & _).
    eexists. split; [exact E1|]. split; [exact E2 | exact E3].
  - rewrite onresult_absent by exact Hr. exists [].
    simpl. rewrite app_nil_r, append_nil_r, Nat.add_0_r. auto.
Qed.

(** Along any run the buffer holds, after what it held at the last
    [clear()] (or at the start), the texts of the requests issued since,
    in their order; the word count follows likewise. *)
Lemma run_text (tr : list Event) :
  forall s : State,
    exists dropped kept : list Forwarded,
      sink (run cfg speechApi tr s) = sink s ++ dropped ++ kept /\
      (existsb is_clear tr = false -> dropped = []) /\
      finalText (run cfg speechApi tr s)
        = ((if existsb is_clear tr then "" else finalText s) ++ joined kept)%string /\
      wordCount (run cfg speechApi tr s)
        = (if existsb is_clear tr then 0 else wordCount s) + split_lengths kept.
Proof.
  induction tr as [|e tr IH]; intro s.
  - exists [], []. simpl. rewrite app_nil_r, append_nil_r, Nat.add_0_r. auto.
  - change (run cfg speechApi (e :: tr) s)
      with (run cfg speechApi tr (step cfg speechApi s e)).
    destruct (IH (step cfg speechApi s e)) as (d2 & k2 & I1 & I2 & I3 & I4).
    simpl existsb. destruct (is_clear e) eqn:Hc.
    + destruct e; try discriminate Hc. simpl in *.
      exists d2, k2. rewrite I1, I3, I4.
      split; [reflexivity|]. split; [discriminate|].
      destruct (existsb is_clear tr); split; reflexivity.
    + destruct (step_text e s Hc) as (a1 & S1 & S2 & S3). simpl orb.
      destruct (existsb is_clear tr) eqn:Ht.
      * exists (a1 ++ d2), k2. rewrite I1, I3, I4, S1, <- !app_assoc.
        split; [reflexivity|]. split; [discriminate|]. split; reflexivity.
      * rewrite (I2 eq_refl) in I1. simpl in I1.
        exists [], (a1 ++ k2).
        rewrite I1, I3, I4, S1, S2, S3, joined_app, split_lengths_app,
          <- app_assoc, append_assoc.
        split; [reflexivity|]. split; [reflexivity|]. split; [reflexivity | lia].
Qed.

End Transcript.

(** C3: a callback of [x] walks only the entries from the cursor of [x] on,
    appends to the buffer exactly the texts it forwards, and leaves the
    cursor at [results.length]. Hence along any run of the script
    (callbacks of either instance, commands, timers, in any order) in
    which the result lists delivered by [x] never get shorter: the
    requests issued by [x] carry pairwise distinct result indices, so no
    entry is forwarded twice; the buffer has grown by exactly the texts of
    the requests issued, each once and in their order (after a [clear()],
    it holds those issued since the last one), and the word count
    likewise, so no entry is appended twice; and the cursor of [x] is
    never smaller after a longer prefix of the run. *)
Theorem cursor_processes_each_entry_once (cfg : Config) (speechApi : bool)
    (x : InstanceName) (s : State) (r : Recognition) (tr : list Event) :
  recognition x s = Some r ->
  lengths_grow x (lastResultIndex r) tr = true ->
  let s' := run cfg speechApi tr s in
  (exists added : list Forwarded,
     sink s' = sink s ++ added /\
     NoDup (map resultIdx (filter (sent_by x) added)) /\
     (forall f, In f added -> sender f = x ->
                lastResultIndex r <= resultIdx f < cursor x s') /\
     (existsb is_clear tr = false ->
      finalText s' = (finalText s ++ joined added)%string /\
      wordCount s' = wordCount s + split_lengths added) /\
     exists dropped kept : list Forwarded,
       added = dropped ++ kept /\
       finalText s'
         = ((if existsb is_clear tr then "" else finalText s) ++ joined kept)%string /\
       wordCount s'
         = (if existsb is_clear tr then 0 else wordCount s) + split_lengths kept) /\
  (forall tr1 tr2 : list Event,
     tr = tr1 ++ tr2 ->
     cursor x s <= cursor x (run cfg speechApi tr1 s) /\
     cursor x (run cfg speechApi tr1 s) <= cursor x s') /\
  (forall (resultIndex : nat) (results : list SpeechResult),
     cursor x (onresult x resultIndex results s') = length results /\
     exists added : list Forwarded,
       sink (onresult x resultIndex results s') = sink s' ++ added /\
       finalText (onresult x resultIndex results s')
         = (finalText s' ++ joined added)%string /\
       wordCount (onresult x resultIndex results s')
         = wordCount s' + split_lengths added /\
       forall f, In f added -> cursor x s' <= resultIdx f < length results).
Proof.
  intros Hr Hg s'.
  destruct (run_processed cfg speechApi x tr s r Hr Hg) as (r' & added & P1 & P2 & P3 & P4 & P5).
  fold s' in P1, P3.
  assert (Hc' : cursor x s' = lastResultIndex r') by (unfold cursor; now rewrite P1).
  split; [|split].
  - destruct (run_text cfg speechApi tr s) as (dropped & kept & T1 & T2 & T3 & T4).
    fold s' in T1, T3, T4.
    assert (Hadded : added = dropped ++ kept)
      by (apply (app_inv_head (sink s)); rewrite <- P3; exact T1).
    exists added. split; [exact P3|]. split; [exact P4|]. split; [|split].
    + intros f Hin Hs. rewrite Hc'. apply P5. apply filter_In. split; [exact Hin|].
      unfold sent_by. rewrite Hs. apply instance_eqb_refl.
    + intro Hnc. rewrite T3, T4, Hnc, Hadded, (T2 Hnc). split; reflexivity.
    + exists dropped, kept. split; [exact Hadded|]. split; [exact T3 | exact T4].
  - intros tr1 tr2 Heq. subst tr.
    destruct (lengths_grow_split cfg speechApi x tr1 tr2 s r Hr Hg) as (G1 & r1 & G2 & G3).
    destruct (run_processed cfg speechApi x tr1 s r Hr G1) as (ra & ? & Q1 & Q2 & _).
    rewrite G2 in Q1. inversion Q1; subst ra.
    destruct (run_processed cfg speechApi x tr2 _ r1 G2 G3) as (rb & ? & R1 & R2 & _).
    unfold s' in P1. rewrite run_app, R1 in P1. inversion P1; subst rb.
    rewrite Hc'. unfold cursor. rewrite Hr, G2. split; assumption.
  - intros resultIndex results.
    destruct (onresult_effect x resultIndex results s' r' P1) as (E1 & E2 & E3 & E4 & _).
    split; [unfold cursor; now rewrite E4|].
    eexists. split; [exact E1|]. split; [exact E2|]. split; [exact E3|].
    intros f Hin. rewrite Hc'. unfold gated in Hin.
    destruct (instance_eqb x (activeInstance s')); [|destruct Hin].
    apply pending_finals_spec in Hin. destruct Hin as (_ & Hfrom & Hn).
    split; [exact Hfrom|]. apply nth_error_Some. rewrite Hn. discriminate.
Qed.

Lemma cursor_processes_each_entry_once_witness :
  let tr := [OnResult A 0 [mkResult "one" true];
             OnResult B 0 [mkResult "uno" true];
             OnResult A 0 [mkResult "one" true; mkResult "two" true];
             OnResult A 1 [mkResult "one" true; mkResult "two" true; mkResult "thr" false]] in
  sink (run CONFIG true tr listening)
    = [mkForwarded A 0 "one"; mkForwarded A 1 "two"] /\
  cursor A (run CONFIG true tr listening) = 3 /\
  finalText (run CONFIG true tr listening) = "one two "%string /\
  exists added : list Forwarded,
    sink (run CONFIG true tr listening) = sink listening ++ added /\
    NoDup (map resultIdx (filter (sent_by A) added)) /\
    finalText (run CONFIG true tr listening) = (finalText listening ++ joined added)%string /\
    wordCount (run CONFIG true tr listening) = wordCount listening + split_lengths added.
Proof.
  intro tr.
  split; [vm_compute; reflexivity|]. split; [vm_compute; reflexivity|].
  split; [vm_compute; reflexivity|].
  destruct (cursor_processes_each_entry_once CONFIG true A listening (mkRecognition 0) tr
              eq_refl eq_refl) as ((added & Hsink & Hnd & _ & Htext & _) & _).
  destruct (Htext eq_refl) as [Hf Hw].
  exists added. split; [exact Hsink|]. split; [exact Hnd|]. split; [exact Hf | exact Hw].
Defined.

(** * The Python side: lemmas and theorems *)

(** ** Dictionaries and [split] *)

Section Dictionaries.

Import Py.

Lemma lookup_assign_same (key : string) (value : Value) (d : Dict) :
  lookup key (assign key value d) = Some value.
Proof.
  induction d as [|[k v] rest IH]; simpl.
  - now rewrite String.eqb_refl.
  - destruct (String.eqb k key) eqn:E; simpl; rewrite E; [reflexivity | exact IH].
Qed.

Lemma lookup_assign_other (key other_key : string) (value : Value) (d : Dict) :
  key <> other_key ->
  lookup other_key (assign key value d) = lookup other_key d.
Proof.
  intro Hne. induction d as [|[k v] rest IH]; simpl.
  - destruct (String.eqb key other_key) eqn:E; [|reflexivity].
    apply String.eqb_eq in E. contradiction.
  - destruct (String.eqb k key) eqn:E; simpl.
    + apply String.eqb_eq in E. subst k.
      destruct (String.eqb key other_key) eqn:E'; [|reflexivity].
      apply String.eqb_eq in E'. contradiction.
    + now rewrite IH.
Qed.

Lemma assign_lookup_id (key : string) (value : Value) (d : Dict) :
  lookup key d = Some value -> assign key value d = d.
Proof.
  induction d as [|[k v] rest IH]; simpl; [discriminate|].
  destruct (String.eqb k key) eqn:E.
  - intro H. now inversion H.
  - intro H. now rewrite IH.
Qed.

Lemma assign_keeps (key other_key : string) (value : Value) (d : Dict) :
  lookup other_key d <> None -> lookup other_key (assign key value d) <> None.
Proof.
  intro H. destruct (String.eqb key other_key) eqn:E.
  - apply String.eqb_eq in E. subst. rewrite lookup_assign_same. discriminate.
  - apply String.eqb_neq in E. now rewrite lookup_assign_other.
Qed.

Lemma lookup_in_keys (key : string) (d : Dict) :
  lookup key d <> None <-> In key (keys d).
Proof.
  unfold keys. induction d as [|[k v] rest IH]; simpl.
  - split; [intro H; now apply H | intros []].
  - destruct (String.eqb k key) eqn:E.
    + apply String.eqb_eq in E. split; [auto | discriminate].
    + apply String.eqb_neq in E. rewrite IH. split; [auto | intros [H | H]; [contradiction | exact H]].
Qed.

Lemma split_not_nil (sep : ascii) (str : string) : split sep str <> [].
Proof.
  destruct str as [|c rest]; simpl; [discriminate|].
  destruct (Ascii.eqb c sep); [discriminate|].
  destruct (split sep rest); discriminate.
Qed.

Lemma split_app (sep : ascii) (a b : string) :
  split sep (a ++ String sep b) = split sep a ++ split sep b.
Proof.
  induction a as [|c a IH]; simpl.
  - now rewrite Ascii.eqb_refl.
  - destruct (Ascii.eqb c sep); [now rewrite IH|].
    rewrite IH. destruct (split sep a) as [|piece pieces] eqn:E; [|reflexivity].
    now apply split_not_nil in E.
Qed.


End Dictionaries.

(** ** [Config.get] and [Config.set] *)

Section ConfigAccess.

Import Py PyConfig.

Lemma get_find (keys : list string) (value default : Value) :
  get_keys keys value default =
  match find_keys keys value with Some v => v | None => default end.
Proof.
  revert value. induction keys as [|key rest IH]; intro value; simpl; [reflexivity|].
  destruct value; try reflexivity.
  destruct (lookup key items) as [v|]; [apply IH | reflexivity].
Qed.


(** A new, empty dictionary takes any path. *)
Lemma set_keys_empty (init : list string) (last : string) (value : Value) :
  snd (set_keys init last value (VDict [])) = true.
Proof.
  induction init as [|key rest IH]; simpl; [reflexivity|].
  rewrite String.eqb_refl.
  destruct (set_keys rest last value (VDict [])) as [child' returned]. exact IH.
Qed.


Lemma set_keys_failure (init : list string) (last : string) (value : Value) :
  forall target target',
    set_keys init last value target = (target', false) -> target' = target.
Proof.
  induction init as [|key rest IH]; intros target target' H; simpl in *.
  - destruct target; inversion H; reflexivity.
  - destruct target; try (inversion H; reflexivity).
    destruct (lookup key items) as [c|] eqn:Hk.
    + rewrite Hk in H.
      destruct (set_keys rest last value c) as [child' returned] eqn:Hs.
      inversion H; subst. apply IH in Hs. subst child'.
      now rewrite assign_lookup_id.
    + rewrite lookup_assign_same in H.
      pose proof (set_keys_empty rest last value) as He.
      destruct (set_keys rest last value (VDict [])) as [child' returned].
      simpl in He. subst returned. discriminate H.
Qed.

Lemma set_keys_through (p : list string) :
  forall (rest : list string) (last : string) (value target leaf : Value),
    find_keys p target = Some leaf ->
    is_dict leaf = false ->
    set_keys (p ++ rest) last value target = (target, false).
Proof.
  induction p as [|key p IH]; intros rest last value target leaf Hf Hl; simpl in *.
  - inversion Hf; subst. destruct leaf; try discriminate Hl; destruct rest; reflexivity.
  - destruct target; try discriminate Hf.
    destruct (lookup key items) as [c|] eqn:Hk; [|discriminate Hf].
    rewrite Hk. rewrite (IH rest last value c leaf Hf Hl).
    now rewrite assign_lookup_id.
Qed.

Lemma find_keys_beyond_leaf (p : list string) :
  forall (q : list string) (target leaf : Value),
    find_keys p target = Some leaf ->
    is_dict leaf = false ->
    q <> [] ->
    find_keys (p ++ q) target = None.
Proof.
  induction p as [|key p IH]; intros q target leaf Ht Hl Hq; simpl in *.
  - inversion Ht; subst. destruct q as [|k q']; [contradiction|].
    simpl. destruct leaf; try reflexivity. discriminate Hl.
  - destruct target; try discriminate Ht.
    destruct (lookup key items); [eapply IH; eassumption | discriminate Ht].
Qed.

End ConfigAccess.



(** X2: a [Config.set] that raises leaves the settings exactly as they
    were: no intermediate dictionary has been created on the way. *)
Theorem config_set_failure_changes_nothing (settings : Py.Dict) (key_path : string)
    (value : Py.Value) :
  snd (PyConfig.set settings key_path value) = false ->
  fst (PyConfig.set settings key_path value) = settings.
Proof.
  unfold PyConfig.set.
  set (keys := Py.split "."%char key_path).
  destruct (PyConfig.set_keys (removelast keys) (List.last keys EmptyString) value
              (Py.VDict settings)) as [target' returned] eqn:Hs.
  destruct target'; simpl; intro Hr; try reflexivity.
  subst returned. apply set_keys_failure in Hs. now inversion Hs.
Qed.

Lemma config_set_failure_changes_nothing_witness :
  fst (PyConfig.set [("server", Py.VDict [("port", Py.VInt 8899)])]
         "server.port.backup" (Py.VInt 1))
  = [("server", Py.VDict [("port", Py.VInt 8899)])].
Proof.
  apply (config_set_failure_changes_nothing
           [("server", Py.VDict [("port", Py.VInt 8899)])] "server.port.backup" (Py.VInt 1)).
  reflexivity.
Defined.

(** X3: a path that runs through a value that is not a dictionary: [get]
    returns the default for it and [set] raises, so that such a value can
    be replaced but never extended. *)
Theorem config_path_through_leaf (settings : Py.Dict) (prefix rest : string)
    (leaf value default : Py.Value) :
  PyConfig.find_keys (Py.split "."%char prefix) (Py.VDict settings) = Some leaf ->
  Py.is_dict leaf = false ->
  PyConfig.get settings (prefix ++ "." ++ rest) default = default /\
  PyConfig.set settings (prefix ++ "." ++ rest) value = (settings, false).
Proof.
  intros Hf Hl. unfold PyConfig.get, PyConfig.set.
  change (prefix ++ "." ++ rest)%string with (prefix ++ String "."%char rest)%string.
  rewrite split_app.
  set (p := Py.split "."%char prefix) in *.
  set (q := Py.split "."%char rest).
  assert (Hq : q <> []) by apply split_not_nil.
  split.
  - rewrite get_find.
    now rewrite (find_keys_beyond_leaf p q _ leaf Hf Hl Hq).
  - assert (Hinit : removelast (p ++ q) = p ++ removelast q)
      by (apply removelast_app; exact Hq).
    rewrite Hinit.
    now rewrite (set_keys_through p (removelast q) _ value _ leaf Hf Hl).
Qed.

Lemma config_path_through_leaf_witness :
  PyConfig.get [("server", Py.VDict [("port", Py.VInt 8899)])] "server.port.backup"
    (Py.VInt 0) = Py.VInt 0 /\
  PyConfig.set [("server", Py.VDict [("port", Py.VInt 8899)])] "server.port.backup"
    (Py.VInt 1) = ([("server", Py.VDict [("port", Py.VInt 8899)])], false).
Proof.
  apply (config_path_through_leaf [("server", Py.VDict [("port", Py.VInt 8899)])]
           "server.port" "backup" (Py.VInt 8899) (Py.VInt 1) (Py.VInt 0));
    reflexivity.
Defined.

(** ** [Config.get] and [Config.set] on objects *)

Section ConfigObjects.

Import PyHeap.

Lemma heap_lookup_assign_same (key : string) (value : Val) (d : Object) :
  lookup key (assign key value d) = Some value.
Proof.
  induction d as [|[k v] rest IH]; simpl.
  - now rewrite String.eqb_refl.
  - destruct (String.eqb k key) eqn:E; simpl; rewrite E; [reflexivity | exact IH].
Qed.

Lemma heap_lookup_assign_other (key other_key : string) (value : Val) (d : Object) :
  key <> other_key ->
  lookup other_key (assign key value d) = lookup other_key d.
Proof.
  intro Hne. induction d as [|[k v] rest IH]; simpl.
  - destruct (String.eqb key other_key) eqn:E; [|reflexivity].
    apply String.eqb_eq in E. contradiction.
  - destruct (String.eqb k key) eqn:E; simpl.
    + apply String.eqb_eq in E. subst k.
      destruct (String.eqb key other_key) eqn:E'; [|reflexivity].
      apply String.eqb_eq in E'. contradiction.
    + destruct (String.eqb k other_key); [reflexivity | exact IH].
Qed.

Lemma store_length (a : nat) (key : string) (value : Val) (h : Heap) :
  length (store a key value h) = length h.
Proof.
  revert a. induction h as [|d h IH]; intros [|a]; simpl; try reflexivity.
  now rewrite IH.
Qed.

Lemma nth_error_store_same (a : nat) (key : string) (value : Val) (h : Heap) :
  nth_error (store a key value h) a = option_map (assign key value) (nth_error h a).
Proof.
  revert a. induction h as [|d h IH]; intros [|a]; simpl; try reflexivity. apply IH.
Qed.

Lemma nth_error_store_other (a b : nat) (key : string) (value : Val) (h : Heap) :
  a <> b -> nth_error (store a key value h) b = nth_error h b.
Proof.
  revert a b. induction h as [|d h IH]; intros [|a] [|b] Hne; simpl; try reflexivity.
  - contradiction.
  - apply IH. lia.
Qed.

Lemma read_store_same (a : nat) (key : string) (value : Val) (h : Heap) :
  a < length h -> read (store a key value h) a key = Some value.
Proof.
  intro Ha. unfold read. rewrite nth_error_store_same.
  destruct (nth_error h a) as [d|] eqn:Hd; simpl.
  - apply heap_lookup_assign_same.
  - apply nth_error_None in Hd. lia.
Qed.

Lemma read_store_other (a b : nat) (key other_key : string) (value : Val) (h : Heap) :
  a <> b \/ key <> other_key ->
  read (store a key value h) b other_key = read h b other_key.
Proof.
  intro Hne. unfold read. destruct (Nat.eq_dec a b) as [<- | Hab].
  - rewrite nth_error_store_same. destruct (nth_error h a); simpl; [|reflexivity].
    apply heap_lookup_assign_other. destruct Hne as [H | H]; [contradiction | exact H].
  - now rewrite nth_error_store_other.
Qed.

Lemma read_app (h l : Heap) (a : nat) (key : string) :
  a < length h -> read (h ++ l) a key = read h a key.
Proof. intro Ha. unfold read. now rewrite nth_error_app1. Qed.

(** From a new, empty dictionary on, [set] only builds new objects. *)
Lemma set_keys_fresh (last : string) (value : Val) (init : list string) :
  forall (h : Heap) (a : nat),
    nth_error h a = Some [] ->
    exists h',
      set_keys init last value (HDict a) h = (h', true) /\
      length h <= length h' /\
      forall b key, b < length h -> b <> a -> read h' b key = read h b key.
Proof.
  induction init as [|k rest IH]; intros h a Ha.
  - simpl. rewrite Ha. eexists. split; [reflexivity|]. rewrite store_length.
    split; [lia|]. intros b key _ Hb. apply read_store_other. left. congruence.
  - simpl. rewrite Ha. simpl.
    assert (Hlt : a < length h) by (apply nth_error_Some; rewrite Ha; discriminate).
    destruct (IH (store a k (HDict (length h)) (h ++ [[]])) (length h)) as (h' & S1 & S2 & S3).
    { rewrite nth_error_store_other by lia.
      rewrite nth_error_app2 by lia. now rewrite Nat.sub_diag. }
    exists h'. split; [exact S1|].
    rewrite store_length, length_app in S2, S3. simpl in S2, S3.
    split; [lia|]. intros b key Hb Hne.
    rewrite S3 by lia. rewrite read_store_other by (left; congruence).
    now apply read_app.
Qed.

(** [set] either raises and leaves the heap as it was, or returns and has
    changed, among the items of the objects that existed, the one named
    by [written] and no other. *)
Lemma set_keys_frame (last : string) (value : Val) (init : list string) :
  forall (target : Val) (h : Heap),
    match written init last target h with
    | None => set_keys init last value target h = (h, false)
    | Some (o, k) =>
        exists h',
          set_keys init last value target h = (h', true) /\
          length h <= length h' /\
          o < length h /\
          (exists v, read h' o k = Some v) /\
          forall b key, b < length h -> b <> o \/ key <> k ->
                        read h' b key = read h b key
    end.
Proof.
  induction init as [|k rest IH]; intros target h.
  - simpl. destruct target; try reflexivity.
    destruct (nth_error h address) as [d|] eqn:Hd; [|reflexivity].
    assert (Hlt : address < length h) by (apply nth_error_Some; rewrite Hd; discriminate).
    eexists. split; [reflexivity|]. rewrite store_length. split; [lia|]. split; [exact Hlt|].
    split; [exists value; now apply read_store_same|].
    intros b key _ Hne. apply read_store_other.
    destruct Hne as [H | H]; [left; congruence | right; congruence].
  - simpl. destruct target; try reflexivity.
    destruct (nth_error h address) as [d|] eqn:Hd; [|reflexivity].
    assert (Hlt : address < length h) by (apply nth_error_Some; rewrite Hd; discriminate).
    destruct (lookup k d) as [child|] eqn:Hk.
    + apply IH.
    + destruct (set_keys_fresh last value rest
                  (store address k (HDict (length h)) (h ++ [[]])) (length h))
        as (h' & S1 & S2 & S3).
      { rewrite nth_error_store_other by lia.
        rewrite nth_error_app2 by lia. now rewrite Nat.sub_diag. }
      exists h'. split; [exact S1|].
      rewrite store_length, length_app in S2, S3. simpl in S2, S3.
      split; [lia|]. split; [exact Hlt|]. split.
      * exists (HDict (length h)). rewrite S3 by lia.
        apply read_store_same. rewrite length_app. simpl. lia.
      * intros b key Hb Hne. rewrite S3 by lia.
        rewrite read_store_other
          by (destruct Hne as [H | H]; [left; congruence | right; congruence]).
        now apply read_app.
Qed.

Lemma lookup_in (key : string) (d : Object) (v : Val) :
  lookup key d = Some v -> In (key, v) d \/ exists k, In (k, v) d.
Proof.
  induction d as [|[k x] rest IH]; simpl; [discriminate|].
  destruct (String.eqb k key).
  - intro H. inversion H; subst. right. exists k. now left.
  - intro H. destruct (IH H) as [Hin | (k' & Hin)].
    + left. now right.
    + right. exists k'. now right.
Qed.

Lemma read_closed (h : Heap) (a : nat) (key : string) (v : Val) :
  closed h = true -> read h a key = Some v -> closed_val (length h) v = true.
Proof.
  unfold closed, read. intros Hc Hr.
  destruct (nth_error h a) as [d|] eqn:Hd; [|discriminate].
  rewrite forallb_forall in Hc. specialize (Hc d (nth_error_In _ _ Hd)).
  rewrite forallb_forall in Hc.
  destruct (lookup_in key d v Hr) as [Hin | (k & Hin)]; exact (Hc _ Hin).
Qed.

(** A [get] that does not read the item that changed returns what it
    returned. *)
Lemma get_keys_frame (h h' : Heap) (o : nat) (k : string) (default : Val)
    (keys : list string) :
  closed h = true ->
  (forall b key, b < length h -> b <> o \/ key <> k -> read h' b key = read h b key) ->
  forall value : Val,
    closed_val (length h) value = true ->
    reads h keys value o k = false ->
    get_keys h' keys value default = get_keys h keys value default.
Proof.
  intros Hc Hframe. induction keys as [|key rest IH]; intros value Hv Hr; [reflexivity|].
  simpl in *. destruct value; try reflexivity.
  simpl in Hv. apply Nat.ltb_lt in Hv.
  apply orb_false_iff in Hr. destruct Hr as [Hslot Hrest].
  assert (Hne : address <> o \/ key <> k).
  { apply andb_false_iff in Hslot. destruct Hslot as [H | H].
    - left. now apply Nat.eqb_neq.
    - right. now apply String.eqb_neq. }
  rewrite (Hframe address key Hv Hne).
  destruct (read h address key) as [v|] eqn:Hread; [|reflexivity].
  apply IH; [exact (read_closed h address key v Hc Hread) | exact Hrest].
Qed.

End ConfigObjects.

(** One dictionary stored under two keys changes under both: with the
    object at address [1] under ["a"] and under ["b"], [set("a.x", 1)]
    makes [get("b.x")] return [1]; that [get] reads the item written. *)
Lemma config_set_through_alias :
  let h := [[("a", PyHeap.HDict 1); ("b", PyHeap.HDict 1)]; []]%string in
  let h' := fst (PyHeap.set h 0 "a.x" (PyHeap.HInt 1)) in
  PyHeap.get h 0 "b.x" PyHeap.HNone = PyHeap.HNone /\
  PyHeap.get h' 0 "b.x" PyHeap.HNone = PyHeap.HInt 1 /\
  PyHeap.written_by_set h 0 "a.x" = Some (1, "x"%string) /\
  PyHeap.read_by_get h 0 "b.x" 1 "x" = true.
Proof. vm_compute. repeat split; reflexivity. Qed.

(** X4: [Config.set] changes one item of one dictionary that existed
    before the call: the last key of its path in the last dictionary on
    it, or the first missing key in the dictionary that lacks it; every
    other item of every object that existed is as before, and a call that
    raises changes nothing at all. Hence [Config.get] for a path whose
    walk does not read that item returns what it returned before the
    [set]. The dictionaries are objects here: one that is stored under
    two keys changes under both, and a [get] through the other key does
    read the item. *)
Theorem config_set_changes_one_item (h : PyHeap.Heap) (settings : nat)
    (set_path get_path : string) (value default : PyHeap.Val) :
  PyHeap.closed h = true ->
  settings < length h ->
  let h' := fst (PyHeap.set h settings set_path value) in
  match PyHeap.written_by_set h settings set_path with
  | None => PyHeap.set h settings set_path value = (h, false)
  | Some (o, k) =>
      snd (PyHeap.set h settings set_path value) = true /\
      o < length h /\
      (forall b key, b < length h -> b <> o \/ key <> k ->
                     PyHeap.read h' b key = PyHeap.read h b key) /\
      (PyHeap.read_by_get h settings get_path o k = false ->
       PyHeap.get h' settings get_path default = PyHeap.get h settings get_path default)
  end.
Proof.
  intros Hc Hs h'. unfold PyHeap.written_by_set, PyHeap.set in *.
  set (keys := Py.split "."%char set_path) in *.
  pose proof (set_keys_frame (List.last keys EmptyString) value (removelast keys)
                (PyHeap.HDict settings) h) as H.
  destruct (PyHeap.written (removelast keys) (List.last keys EmptyString)
              (PyHeap.HDict settings) h) as [[o k]|]; [|exact H].
  destruct H as (h1 & S1 & S2 & S3 & S4 & S5).
  unfold h'. rewrite S1. simpl.
  split; [reflexivity|]. split; [exact S3|]. split; [exact S5|].
  intro Hr. unfold PyHeap.get.
  apply (get_keys_frame h h1 o k default _ Hc S5).
  - simpl. now apply Nat.ltb_lt.
  - exact Hr.
Qed.

(** The settings hold one dictionary under ["a"] and under ["b"];
    [set("a.x", 1)] leaves [get("b.y")] as it was, and [get("a.y")]. *)
Lemma config_set_changes_one_item_witness :
  let h := [[("a", PyHeap.HDict 1); ("b", PyHeap.HDict 1)];
            [("y", PyHeap.HInt 7)]]%string in
  PyHeap.written_by_set h 0 "a.x" = Some (1, "x"%string) /\
  PyHeap.get (fst (PyHeap.set h 0 "a.x" (PyHeap.HInt 1))) 0 "b.y" PyHeap.HNone
  = PyHeap.get h 0 "b.y" PyHeap.HNone.
Proof.
  intro h. split; [reflexivity|].
  pose proof (config_set_changes_one_item h 0 "a.x" "b.y" (PyHeap.HInt 1) PyHeap.HNone
                eq_refl ltac:(simpl; lia)) as H.
  simpl in H. destruct H as (_ & _ & _ & H). exact (H eq_refl).
Defined.

(** ** [Config._merge_config] *)

Section ConfigMerge.

Import Py PyConfig.

Lemma merge_value_cons (base : Dict) (key : string) (value : Value) (rest : Dict) :
  merge_value base (VDict ((key, value) :: rest))
  = merge_value (merge_item base key value) (VDict rest).
Proof. reflexivity. Qed.

Lemma merge_item_lookup (base : Dict) (key : string) (value : Value) :
  lookup key (merge_item base key value)
  = Some match lookup key base, value with
         | Some (VDict sub), VDict _ => VDict (merge_value sub value)
         | _, _ => value
         end.
Proof.
  unfold merge_item.
  destruct (lookup key base) as [[| | | | |sub]|]; try apply lookup_assign_same.
  destruct value; apply lookup_assign_same.
Qed.

Lemma merge_item_other (base : Dict) (key other_key : string) (value : Value) :
  key <> other_key ->
  lookup other_key (merge_item base key value) = lookup other_key base.
Proof.
  intro Hne. unfold merge_item.
  destruct (lookup key base) as [[| | | | |sub]|]; try (now apply lookup_assign_other).
  destruct value; now apply lookup_assign_other.
Qed.

Lemma merge_lookup_out (items : Dict) :
  forall (base : Dict) (key : string),
    lookup key items = None ->
    lookup key (merge_value base (VDict items)) = lookup key base.
Proof.
  induction items as [|[k v] rest IH]; intros base key Hk; [reflexivity|].
  rewrite merge_value_cons. simpl in Hk.
  destruct (String.eqb k key) eqn:E; [discriminate Hk|].
  apply String.eqb_neq in E.
  rewrite IH by exact Hk. now apply merge_item_other.
Qed.

Lemma lookup_none_keys (key : string) (d : Dict) :
  ~ In key (keys d) -> lookup key d = None.
Proof.
  intro H. destruct (lookup key d) eqn:E; [|reflexivity].
  exfalso. apply H, lookup_in_keys. rewrite E. discriminate.
Qed.

Lemma merge_lookup_in (items : Dict) :
  forall (base : Dict) (key : string) (value : Value),
    NoDup (keys items) ->
    lookup key items = Some value ->
    lookup key (merge_value base (VDict items)) = lookup key (merge_item base key value).
Proof.
  induction items as [|[k v] rest IH]; intros base key value Hnd Hk; [discriminate Hk|].
  rewrite merge_value_cons. simpl in Hk. unfold keys in Hnd. simpl in Hnd.
  inversion Hnd as [|? ? Hnotin Hrest]; subst.
  destruct (String.eqb k key) eqn:E.
  - apply String.eqb_eq in E. subst k. inversion Hk; subst v.
    apply merge_lookup_out, lookup_none_keys, Hnotin.
  - apply String.eqb_neq in E.
    rewrite (IH _ key value Hrest Hk).
    rewrite !merge_item_lookup. now rewrite merge_item_other.
Qed.

Lemma unique_keys_top (items : Dict) : unique_keys (VDict items) -> NoDup (keys items).
Proof. simpl. intros [H _]. exact H. Qed.

Lemma unique_keys_lookup (items : Dict) (key : string) (v : Value) :
  unique_keys (VDict items) -> lookup key items = Some v -> unique_keys v.
Proof.
  simpl. intros [_ Hall]. induction items as [|[k x] rest IH]; simpl; [discriminate|].
  destruct Hall as [Hx Hrest].
  destruct (String.eqb k key); [intro H; inversion H; subst; exact Hx | now apply IH].
Qed.

Lemma reaches_false_find (keys : list string) :
  forall overrides,
    keys <> [] ->
    reaches keys overrides = false ->
    find_keys keys overrides = None.
Proof.
  induction keys as [|key rest IH]; intros overrides Hne Hr; [contradiction|].
  simpl in *. destruct overrides; try reflexivity.
  destruct (lookup key items) as [v|]; [|reflexivity].
  destruct rest as [|k rest']; [discriminate Hr|].
  destruct (is_dict v) eqn:Hd; [|discriminate Hr].
  apply IH; [discriminate | exact Hr].
Qed.

Lemma find_keys_cons (key : string) (rest : list string) (d : Dict) :
  find_keys (key :: rest) (VDict d)
  = match lookup key d with Some v => find_keys rest v | None => None end.
Proof. reflexivity. Qed.

Lemma merge_keeps_unreached (keys : list string) :
  forall base overrides : Dict,
    keys <> [] ->
    unique_keys (VDict overrides) ->
    reaches keys (VDict overrides) = false ->
    find_keys keys (VDict (_merge_config base overrides)) = find_keys keys (VDict base).
Proof.
  unfold _merge_config.
  induction keys as [|key rest IH]; intros base overrides Hne Hu Hr; [contradiction|].
  simpl in Hr. rewrite !find_keys_cons.
  destruct (lookup key overrides) as [v|] eqn:Hk.
  - rewrite (merge_lookup_in overrides base key v (unique_keys_top _ Hu) Hk).
    rewrite merge_item_lookup.
    destruct rest as [|k rest']; [discriminate Hr|].
    destruct v; try discriminate Hr. simpl in Hr.
    pose proof (unique_keys_lookup _ _ _ Hu Hk) as Hu'.
    destruct (lookup key base) as [[| | | | |sub]|].
    1-5, 7: now apply reaches_false_find.
    apply IH; [discriminate | exact Hu' | exact Hr].
  - now rewrite merge_lookup_out.
Qed.

Lemma merge_override_wins (keys : list string) :
  forall (base overrides : Dict) (leaf : Value),
    unique_keys (VDict overrides) ->
    find_keys keys (VDict overrides) = Some leaf ->
    is_dict leaf = false ->
    find_keys keys (VDict (_merge_config base overrides)) = Some leaf.
Proof.
  unfold _merge_config.
  induction keys as [|key rest IH]; intros base overrides leaf Hu Hf Hl.
  - simpl in Hf. inversion Hf; subst. discriminate Hl.
  - simpl in Hf. rewrite find_keys_cons.
    destruct (lookup key overrides) as [v|] eqn:Hk; [|discriminate Hf].
    rewrite (merge_lookup_in overrides base key v (unique_keys_top _ Hu) Hk).
    rewrite merge_item_lookup.
    pose proof (unique_keys_lookup _ _ _ Hu Hk) as Hu'.
    destruct v; try (destruct (lookup key base) as [[| | | | |sub]|]; exact Hf).
    destruct (lookup key base) as [[| | | | |sub]|]; try exact Hf.
    now apply IH.
Qed.

Lemma merge_keeps_keys (items : Dict) :
  forall (base : Dict) (key : string),
    lookup key base <> None ->
    lookup key (merge_value base (VDict items)) <> None.
Proof.
  induction items as [|[k v] rest IH]; intros base key Hk; [exact Hk|].
  rewrite merge_value_cons. apply IH.
  destruct (String.eqb k key) eqn:E.
  - apply String.eqb_eq in E. subst k. rewrite merge_item_lookup. discriminate.
  - apply String.eqb_neq in E. now rewrite merge_item_other.
Qed.

End ConfigMerge.

(** X5: after the overrides of a configuration file are merged in, every
    value of the file that is not a dictionary is what [Config.get] returns
    for its path, whatever the defaults held there. *)
Theorem config_file_value_wins (base overrides : Py.Dict) (key_path : string)
    (leaf default : Py.Value) :
  PyConfig.unique_keys (Py.VDict overrides) ->
  PyConfig.find_keys (Py.split "."%char key_path) (Py.VDict overrides) = Some leaf ->
  Py.is_dict leaf = false ->
  PyConfig.get (PyConfig._load_from_file base (Some (Py.VDict overrides))) key_path default
  = leaf.
Proof.
  intros Hu Hf Hl. unfold PyConfig.get, PyConfig._load_from_file.
  rewrite get_find. now rewrite (merge_override_wins _ base overrides leaf Hu Hf Hl).
Qed.

Lemma config_file_value_wins_witness :
  PyConfig.get
    (PyConfig._load_from_file
       [("server", Py.VDict [("host", Py.VStr "localhost"); ("port", Py.VInt 8899)])]
       (Some (Py.VDict [("server", Py.VDict [("port", Py.VInt 8898)])])))
    "server.port" Py.VNone
  = Py.VInt 8898.
Proof.
  apply (config_file_value_wins
           [("server", Py.VDict [("host", Py.VStr "localhost"); ("port", Py.VInt 8899)])]
           [("server", Py.VDict [("port", Py.VInt 8898)])]
           "server.port" (Py.VInt 8898) Py.VNone).
  - simpl. repeat split; repeat constructor; simpl; intuition discriminate.
  - reflexivity.
  - reflexivity.
Defined.

(** X6: a path that the configuration file does not reach keeps its
    default: merging the file changes nothing that [Config.get] returns
    for it. A file that is missing, unreadable or not a JSON object changes
    nothing at all. *)
Theorem config_file_keeps_unreached_defaults (base : Py.Dict) (key_path : string)
    (default : Py.Value) :
  (forall overrides : Py.Dict,
     PyConfig.unique_keys (Py.VDict overrides) ->
     PyConfig.reaches (Py.split "."%char key_path) (Py.VDict overrides) = false ->
     PyConfig.get (PyConfig._load_from_file base (Some (Py.VDict overrides))) key_path default
     = PyConfig.get base key_path default) /\
  (forall file : option Py.Value,
     match file with Some (Py.VDict _) => False | _ => True end ->
     PyConfig._load_from_file base file = base).
Proof.
  split.
  - intros overrides Hu Hr. unfold PyConfig.get, PyConfig._load_from_file.
    rewrite !get_find.
    now rewrite (merge_keeps_unreached _ base overrides (split_not_nil _ _) Hu Hr).
  - intros [[| | | | |items]|] H; try reflexivity. destruct H.
Qed.

Lemma config_file_keeps_unreached_defaults_witness :
  PyConfig.get
    (PyConfig._load_from_file
       [("server", Py.VDict [("host", Py.VStr "localhost"); ("port", Py.VInt 8899)])]
       (Some (Py.VDict [("server", Py.VDict [("port", Py.VInt 8898)])])))
    "server.host" Py.VNone
  = PyConfig.get
      [("server", Py.VDict [("host", Py.VStr "localhost"); ("port", Py.VInt 8899)])]
      "server.host" Py.VNone.
Proof.
  apply (proj1 (config_file_keeps_unreached_defaults
                  [("server", Py.VDict [("host", Py.VStr "localhost"); ("port", Py.VInt 8899)])]
                  "server.host" Py.VNone)
           [("server", Py.VDict [("port", Py.VInt 8898)])]).
  - simpl. repeat split; repeat constructor; simpl; intuition discriminate.
  - reflexivity.
Defined.

(** X7: merging overrides never removes a key: whatever the file holds,
    every key of the defaults is still a key afterwards (its value may have
    been replaced). *)
Theorem config_merge_keeps_keys (base overrides : Py.Dict) (key : string) :
  In key (Py.keys base) -> In key (Py.keys (PyConfig._merge_config base overrides)).
Proof.
  intro H. apply lookup_in_keys. apply merge_keeps_keys. now apply lookup_in_keys.
Qed.

Lemma config_merge_keeps_keys_witness :
  In "server" (Py.keys (PyConfig._merge_config
                          [("server", Py.VDict [("port", Py.VInt 8899)])]
                          [("server", Py.VInt 5); ("extra", Py.VNone)])).
Proof.
  apply (config_merge_keeps_keys [("server", Py.VDict [("port", Py.VInt 8899)])]
           [("server", Py.VInt 5); ("extra", Py.VNone)] "server").
  simpl. left. reflexivity.
Defined.

(** ** [ErrorHandler.retry] *)

Section RetryLoop.

Import PyRetry.

Variables V E : Type.
Variable caught : E -> bool.
Variable func : nat -> Outcome V E.
Variable attempts retry_delay : Z.
Variable fallback : option (Outcome V E).

Lemma attempt_loop_calls (remaining : nat) :
  forall (attempt : nat) (last_error : option E) (slept : list Z),
    func_calls (attempt_loop caught func attempts retry_delay fallback
                  remaining attempt last_error slept) <= attempt + remaining.
Proof.
  induction remaining as [|r IH]; intros attempt last_error slept; simpl.
  - destruct fallback; simpl; lia.
  - destruct (func attempt) as [v|e]; simpl; [lia|].
    destruct (caught e); simpl; [|lia].
    destruct (Z.of_nat attempt <? attempts - 1)%Z.
    + destruct (sleep_time retry_delay attempt <? 0)%Z; simpl; [lia|].
      specialize (IH (S attempt) (Some e) (slept ++ [sleep_time retry_delay attempt])). lia.
    + specialize (IH (S attempt) (Some e) slept). lia.
Qed.

Lemma sleep_time_nonneg (attempt : nat) :
  (0 <= retry_delay)%Z -> (0 <= sleep_time retry_delay attempt)%Z.
Proof.
  intro H. unfold sleep_time. apply Z.mul_nonneg_nonneg; [exact H|].
  apply Z.pow_nonneg. lia.
Qed.

(** [k] failures in a row, each caught and each followed by its sleep. *)
Lemma attempt_loop_failures (k : nat) :
  forall (remaining a : nat) (last_error : option E) (slept : list Z),
    k <= remaining ->
    (forall i, a <= i < a + k -> exists e, func i = Raises e /\ caught e = true) ->
    (Z.of_nat (a + k) <= attempts - 1)%Z ->
    k = 0 \/ (0 <= retry_delay)%Z ->
    attempt_loop caught func attempts retry_delay fallback remaining a last_error slept
    = attempt_loop caught func attempts retry_delay fallback (remaining - k) (a + k)
        (match k with O => last_error | S k' => raised (func (a + k')) end)
        (slept ++ map (sleep_time retry_delay) (seq a k)).
Proof.
  induction k as [|k IH]; intros remaining a last_error slept Hk Hfail Hlast Hd.
  - simpl. now rewrite Nat.sub_0_r, Nat.add_0_r, app_nil_r.
  - destruct remaining as [|r]; [lia|].
    destruct (Hfail a ltac:(lia)) as (e & He & Hc).
    simpl attempt_loop at 1. rewrite He, Hc.
    assert (Hlt : (Z.of_nat a <? attempts - 1)%Z = true) by (apply Z.ltb_lt; lia).
    rewrite Hlt.
    assert (Hd' : (0 <= retry_delay)%Z) by (destruct Hd as [Hd | Hd]; [discriminate Hd | exact Hd]).
    assert (Hs : (sleep_time retry_delay a <? 0)%Z = false)
      by (apply Z.ltb_ge, sleep_time_nonneg, Hd').
    rewrite Hs.
    rewrite (IH r (S a) (Some e) (slept ++ [sleep_time retry_delay a])); try lia.
    + simpl. rewrite <- app_assoc. simpl.
      destruct k as [|k'].
      * rewrite ?Nat.add_0_r, ?He. simpl. f_equal; lia.
      * replace (a + S k') with (S (a + k')) by lia. f_equal; lia.
    + intros i Hi. apply Hfail. lia.
Qed.

Lemma total_app (l l' : list Z) : total (l ++ l') = (total l + total l')%Z.
Proof. unfold total. induction l as [|x l IH]; simpl; [reflexivity | rewrite IH; lia]. Qed.

Lemma backoff_total (n : nat) :
  total (backoff retry_delay n) = (retry_delay * (2 ^ Z.of_nat n - 1))%Z.
Proof.
  unfold backoff. induction n as [|n IH].
  - simpl. lia.
  - rewrite seq_S, map_app, total_app, IH.
    unfold total, sleep_time. cbn [map fold_right Nat.add].
    rewrite Nat2Z.inj_succ, Z.pow_succ_r by lia. lia.
Qed.

End RetryLoop.

(** X8: the wrapper of [retry] calls the wrapped function at most
    [attempts] times, where [attempts] is [max_attempts] or, when that is
    [None] or [0], the configured number; with a number that is not
    positive it does not call it at all. *)
Theorem retry_calls_bounded (V E : Type) (caught : E -> bool)
    (max_attempts delay : option Z) (configured_attempts configured_delay : Z)
    (fallback : option (PyRetry.Outcome V E)) (func : nat -> PyRetry.Outcome V E) :
  PyRetry.func_calls
    (PyRetry.retry caught max_attempts delay configured_attempts configured_delay
       fallback func)
  <= Z.to_nat (PyRetry.or_config max_attempts configured_attempts).
Proof.
  unfold PyRetry.retry.
  pose proof (attempt_loop_calls V E caught func
                (PyRetry.or_config max_attempts configured_attempts)
                (PyRetry.or_config delay configured_delay) fallback
                (Z.to_nat (PyRetry.or_config max_attempts configured_attempts))
                0 None []) as H.
  simpl in H. exact H.
Qed.

(** X9: when the first [k] calls raise exceptions of the caught classes and
    call [k] returns, with [k] below the number of attempts and, unless
    [k] is [0], a delay that is not negative: the wrapper returns that
    value after [k + 1] calls, having slept [delay * 2^i] after failure
    [i], in total [delay * (2^k - 1)]; the fallback is not used. *)
Theorem retry_returns_first_success (V E : Type) (caught : E -> bool)
    (max_attempts delay : option Z) (configured_attempts configured_delay : Z)
    (fallback : option (PyRetry.Outcome V E)) (func : nat -> PyRetry.Outcome V E)
    (k : nat) (v : V) :
  let attempts := PyRetry.or_config max_attempts configured_attempts in
  let retry_delay := PyRetry.or_config delay configured_delay in
  (forall i, i < k -> exists e, func i = PyRetry.Raises e /\ caught e = true) ->
  func k = PyRetry.Returns v ->
  (Z.of_nat k < attempts)%Z ->
  k = 0 \/ (0 <= retry_delay)%Z ->
  PyRetry.retry caught max_attempts delay configured_attempts configured_delay fallback func
  = PyRetry.mkRun (PyRetry.Returned v) (S k) (PyRetry.backoff retry_delay k) false /\
  PyRetry.total (PyRetry.backoff retry_delay k) = (retry_delay * (2 ^ Z.of_nat k - 1))%Z.
Proof.
  intros attempts retry_delay Hfail Hret Hk Hd.
  split; [|apply backoff_total].
  unfold PyRetry.retry. fold attempts retry_delay.
  rewrite (attempt_loop_failures V E caught func attempts retry_delay fallback k
             (Z.to_nat attempts) 0 None []); try lia.
  - simpl (0 + k). destruct (Z.to_nat attempts - k) as [|r] eqn:Hr; [lia|].
    simpl. rewrite Hret. reflexivity.
  - intros i Hi. apply Hfail. lia.
Qed.

Lemma retry_returns_first_success_witness :
  PyRetry.retry (fun _ : nat => true) None None 3 1 None
    (fun i => if Nat.ltb i 2 then PyRetry.Raises i else PyRetry.Returns 7)
  = PyRetry.mkRun (PyRetry.Returned 7) 3 [1; 2]%Z false.
Proof.
  assert (Hfail : forall i, i < 2 ->
            exists e, (fun i => if Nat.ltb i 2 then PyRetry.Raises i else PyRetry.Returns 7) i
                      = PyRetry.Raises e /\ (fun _ : nat => true) e = true).
  { intros i Hi. destruct i as [|[|i]]; [exists 0 | exists 1 | lia]; split; reflexivity. }
  apply (proj1 (retry_returns_first_success nat nat (fun _ => true) None None 3 1 None
                  (fun i => if Nat.ltb i 2 then PyRetry.Raises i else PyRetry.Returns 7) 2 7
                  Hfail eq_refl ltac:(simpl; lia) ltac:(right; simpl; lia))).
Defined.

(** X10: when every attempt raises an exception of the caught classes (at
    least one attempt and, unless there is only one, a delay that is not
    negative): the function has been called
    [attempts] times, a sleep follows each failure but the last, and the
    wrapper ends as the fallback does when there is one, and otherwise
    raises the exception of the last attempt. *)
Theorem retry_exhausted (V E : Type) (caught : E -> bool)
    (max_attempts delay : option Z) (configured_attempts configured_delay : Z)
    (fallback : option (PyRetry.Outcome V E)) (func : nat -> PyRetry.Outcome V E)
    (last : E) :
  let attempts := PyRetry.or_config max_attempts configured_attempts in
  let retry_delay := PyRetry.or_config delay configured_delay in
  let n := Z.to_nat attempts in
  (1 <= attempts)%Z ->
  attempts = 1%Z \/ (0 <= retry_delay)%Z ->
  (forall i, i < n -> exists e, func i = PyRetry.Raises e /\ caught e = true) ->
  func (n - 1) = PyRetry.Raises last ->
  PyRetry.retry caught max_attempts delay configured_attempts configured_delay fallback func
  = PyRetry.mkRun
      (match fallback with
       | Some o => PyRetry.outcome_result o
       | None => PyRetry.Raised last
       end)
      n (PyRetry.backoff retry_delay (n - 1))
      (match fallback with Some _ => true | None => false end).
Proof.
  intros attempts retry_delay n Hn Hd Hfail Hlast.
  unfold PyRetry.retry. fold attempts retry_delay n.
  rewrite (attempt_loop_failures V E caught func attempts retry_delay fallback (n - 1)
             n 0 None []); try (unfold n; lia).
  - replace (n - (n - 1)) with 1 by (unfold n; lia). simpl (0 + (n - 1)).
    destruct (Hfail (n - 1) ltac:(unfold n; lia)) as (e & He & Hc).
    rewrite Hlast in He. inversion He; subst e.
    simpl. rewrite Hlast, Hc.
    assert (Hge : (Z.of_nat (n - 1) <? attempts - 1)%Z = false)
      by (apply Z.ltb_ge; unfold n; lia).
    rewrite Hge.
    replace (S (n - 1)) with n by (unfold n; lia).
    destruct fallback; reflexivity.
  - intros i Hi. apply Hfail. lia.
Qed.

Lemma retry_exhausted_witness :
  PyRetry.retry (fun _ : nat => true) (Some 3%Z) (Some 2%Z) 5 1 None
    (fun i => @PyRetry.Raises nat nat (10 + i))
  = PyRetry.mkRun (PyRetry.Raised 12) 3 [2; 4]%Z false.
Proof.
  assert (Hfail : forall i, i < Z.to_nat (PyRetry.or_config (Some 3%Z) 5) ->
            exists e, (fun i => @PyRetry.Raises nat nat (10 + i)) i = PyRetry.Raises e /\
                      (fun _ : nat => true) e = true).
  { intros i _. exists (10 + i). split; reflexivity. }
  apply (retry_exhausted nat nat (fun _ => true) (Some 3%Z) (Some 2%Z) 5 1 None
           (fun i => PyRetry.Raises (10 + i)) 12
           ltac:(simpl; lia) ltac:(right; simpl; lia) Hfail eq_refl).
Defined.

(** X11: an exception outside the caught classes is not retried: when call
    [k] raises one, after [k] caught failures (with a delay that is not
    negative unless [k] is [0]), the wrapper raises it at once, without
    another call and without the fallback, even if one was given. *)
Theorem retry_uncaught_propagates (V E : Type) (caught : E -> bool)
    (max_attempts delay : option Z) (configured_attempts configured_delay : Z)
    (fallback : option (PyRetry.Outcome V E)) (func : nat -> PyRetry.Outcome V E)
    (k : nat) (e : E) :
  let attempts := PyRetry.or_config max_attempts configured_attempts in
  let retry_delay := PyRetry.or_config delay configured_delay in
  (forall i, i < k -> exists e', func i = PyRetry.Raises e' /\ caught e' = true) ->
  func k = PyRetry.Raises e ->
  caught e = false ->
  (Z.of_nat k < attempts)%Z ->
  k = 0 \/ (0 <= retry_delay)%Z ->
  PyRetry.retry caught max_attempts delay configured_attempts configured_delay fallback func
  = PyRetry.mkRun (PyRetry.Raised e) (S k) (PyRetry.backoff retry_delay k) false.
Proof.
  intros attempts retry_delay Hfail Hraise Hc Hk Hd.
  unfold PyRetry.retry. fold attempts retry_delay.
  rewrite (attempt_loop_failures V E caught func attempts retry_delay fallback k
             (Z.to_nat attempts) 0 None []); try lia.
  - simpl (0 + k). destruct (Z.to_nat attempts - k) as [|r] eqn:Hr; [lia|].
    simpl. rewrite Hraise, Hc. reflexivity.
  - intros i Hi. apply Hfail. lia.
Qed.

Lemma retry_uncaught_propagates_witness :
  PyRetry.retry (fun e : nat => Nat.eqb e 0) None None 3 1 (Some (PyRetry.Returns 9))
    (fun i => if Nat.eqb i 0 then PyRetry.Raises 0 else @PyRetry.Raises nat nat 5)
  = PyRetry.mkRun (PyRetry.Raised 5) 2 [1]%Z false.
Proof.
  assert (Hfail : forall i, i < 1 ->
            exists e', (fun i => if Nat.eqb i 0 then PyRetry.Raises 0
                                 else @PyRetry.Raises nat nat 5) i = PyRetry.Raises e' /\
                       (fun e : nat => Nat.eqb e 0) e' = true).
  { intros i Hi. destruct i; [exists 0; split; reflexivity | lia]. }
  apply (retry_uncaught_propagates nat nat (fun e => Nat.eqb e 0) None None 3 1
           (Some (PyRetry.Returns 9))
           (fun i => if Nat.eqb i 0 then PyRetry.Raises 0 else PyRetry.Raises 5) 1 5
           Hfail eq_refl eq_refl ltac:(simpl; lia) ltac:(right; simpl; lia)).
Defined.

(** X12: [max_attempts=0] does not switch retrying off: [0] is false, so
    the configured number of attempts is used, as for [None]. When the
    number of attempts in force is not positive, the function is never
    called, and without a fallback the wrapper raises [TypeError] (from
    [raise last_error] with [last_error] still [None]). *)
Theorem retry_without_attempts (V E : Type) (caught : E -> bool)
    (max_attempts delay : option Z) (configured_attempts configured_delay : Z)
    (fallback : option (PyRetry.Outcome V E)) (func : nat -> PyRetry.Outcome V E) :
  PyRetry.retry caught (Some 0%Z) delay configured_attempts configured_delay fallback func
  = PyRetry.retry caught None delay configured_attempts configured_delay fallback func /\
  ((PyRetry.or_config max_attempts configured_attempts <= 0)%Z ->
   PyRetry.retry caught max_attempts delay configured_attempts configured_delay fallback func
   = PyRetry.mkRun
       (match fallback with
        | Some o => PyRetry.outcome_result o
        | None => PyRetry.RaisedTypeError
        end)
       0 []
       (match fallback with Some _ => true | None => false end)).
Proof.
  split; [reflexivity|].
  intro Hle. unfold PyRetry.retry.
  replace (Z.to_nat (PyRetry.or_config max_attempts configured_attempts)) with 0 by lia.
  simpl. destruct fallback; reflexivity.
Qed.

Lemma retry_without_attempts_witness :
  PyRetry.retry (fun _ : nat => true) (Some 0%Z) None 0 1 None
    (fun _ => @PyRetry.Returns nat nat 1)
  = PyRetry.mkRun PyRetry.RaisedTypeError 0 [] false.
Proof.
  apply (proj2 (retry_without_attempts nat nat (fun _ => true) (Some 0%Z) None 0 1 None
                  (fun _ => PyRetry.Returns 1))).
  simpl. lia.
Defined.

(** X23: a negative delay ends the retrying at the first failure. With at
    least two attempts in force, when the first call raises an exception
    of the caught classes, [time.sleep] is called with the negative delay
    and raises [ValueError]: the wrapper raises it after that one call,
    nothing has been slept, and the fallback is not used, even if one was
    given. A first call that returns is not affected by the delay. *)
Theorem retry_negative_delay (V E : Type) (caught : E -> bool)
    (max_attempts delay : option Z) (configured_attempts configured_delay : Z)
    (fallback : option (PyRetry.Outcome V E)) (func : nat -> PyRetry.Outcome V E)
    (e : E) :
  let attempts := PyRetry.or_config max_attempts configured_attempts in
  let retry_delay := PyRetry.or_config delay configured_delay in
  (2 <= attempts)%Z ->
  (retry_delay < 0)%Z ->
  func 0 = PyRetry.Raises e ->
  caught e = true ->
  PyRetry.retry caught max_attempts delay configured_attempts configured_delay fallback func
  = PyRetry.mkRun PyRetry.RaisedValueError 1 [] false.
Proof.
  intros attempts retry_delay Hn Hd Hraise Hc.
  unfold PyRetry.retry. fold attempts retry_delay.
  destruct (Z.to_nat attempts) as [|r] eqn:Hr; [lia|].
  simpl. rewrite Hraise, Hc.
  assert (Hlt : (0 <? attempts - 1)%Z = true) by (apply Z.ltb_lt; lia).
  rewrite Hlt.
  assert (Hs : (PyRetry.sleep_time retry_delay 0 <? 0)%Z = true)
    by (apply Z.ltb_lt; unfold PyRetry.sleep_time; simpl; lia).
  rewrite Hs. reflexivity.
Qed.

Lemma retry_negative_delay_witness :
  PyRetry.retry (fun _ : nat => true) (Some 3%Z) (Some (-1)%Z) 3 1 (Some (PyRetry.Returns 9))
    (fun i => @PyRetry.Raises nat nat i)
  = PyRetry.mkRun PyRetry.RaisedValueError 1 [] false.
Proof.
  apply (retry_negative_delay nat nat (fun _ => true) (Some 3%Z) (Some (-1)%Z) 3 1
           (Some (PyRetry.Returns 9)) (fun i => PyRetry.Raises i) 0
           ltac:(simpl; lia) ltac:(simpl; lia) eq_refl eq_refl).
Defined.

(** ** [safe_operation], the transcript endpoint, the toggles *)

Section Application.

Import PyApp.

Lemma handle_transcript_cases (f : Failures) (text : string) (h : Handler) (d : Desktop) :
  _handle_transcript f text h d =
  match text with
  | EmptyString => (h, d, ErrorResponse 400 "No transcript text provided")
  | _ =>
      if copy_raises f then (h, d, Ok200)
      else if press_raises f then (h, mkDesktop text (keys_sent d), Ok200)
      else (mkHandler (is_recording h) (accumulated_text h ++ text ++ " ")%string,
            mkDesktop text (keys_sent d ++ ["ctrl+v"%string]), Ok200)
  end.
Proof.
  destruct text as [|c rest]; [reflexivity|].
  unfold _handle_transcript, process_transcript, process_transcript_body.
  destruct (copy_raises f); [reflexivity|].
  destruct (press_raises f); reflexivity.
Qed.

Lemma toggle_step_handler (s : Flags) (e : ToggleEvent) :
  handler_recording (toggle_step s e) = negb (handler_recording s) /\
  server_recording (toggle_step s e) = negb (handler_recording s).
Proof.
  destruct e as [f|f m]; simpl; unfold _handle_toggle, app_toggle_recording;
    destruct (menu_raises f); simpl;
    try (destruct (negb (handler_recording s) && browser_raises f)); simpl;
    split; reflexivity.
Qed.

End Application.

(** X13: a function decorated with [safe_operation] never raises an
    [Exception]. When its body raises, the exception is swallowed and the
    call returns [None], whatever [default_return] the decorator was
    given: the value the generator of [graceful_degradation] returns is
    dropped by the context manager. *)
Theorem safe_operation_returns_none (R : Type) (default_return : option R)
    (body : PyApp.Body R) :
  PyApp.safe_operation default_return body =
  PyApp.CallReturns
    match body with
    | PyApp.BodyReturns value => value
    | PyApp.BodyRaises => None
    end.
Proof. destruct body; reflexivity. Qed.

(** X14: with the handler wired to the server as the application does, the
    transcript endpoint never answers 500. Every request with a text that
    is not empty is answered 200 [OK], also when copying or the key press
    failed and nothing was pasted; an empty text is answered 400.
    [accumulated_text] grows by the pasted texts only, each followed by a
    space, in the order of the requests; one [ctrl+v] is sent for each.
    [is_recording] is neither read nor changed. *)
Theorem transcript_requests_never_fail (requests : list PyApp.Request)
    (h : PyApp.Handler) (d : PyApp.Desktop) :
  snd (PyApp.serve requests h d) = map PyApp.expected_response requests /\
  PyApp.accumulated_text (fst (fst (PyApp.serve requests h d)))
    = (PyApp.accumulated_text h ++ PyApp.typed requests)%string /\
  PyApp.is_recording (fst (fst (PyApp.serve requests h d))) = PyApp.is_recording h /\
  PyApp.keys_sent (snd (fst (PyApp.serve requests h d)))
    = PyApp.keys_sent d
      ++ repeat "ctrl+v"%string (length (filter PyApp.pasted requests)).
Proof.
  revert h d. induction requests as [|[text f] rest IH]; intros h d.
  - simpl. rewrite append_nil_r, app_nil_r. repeat split; reflexivity.
  - cbn [PyApp.serve PyApp.request_text PyApp.request_failures].
    rewrite handle_transcript_cases.
    unfold PyApp.pasted, PyApp.expected_response.
    cbn [map filter PyApp.typed PyApp.request_text PyApp.request_failures].
    unfold PyApp.pasted. cbn [PyApp.request_text PyApp.request_failures].
    destruct text as [|c text'].
    + specialize (IH h d).
      destruct (PyApp.serve rest h d) as [[h2 d2] responses].
      simpl in *. destruct IH as (I1 & I2 & I3 & I4).
      rewrite I1. repeat split; assumption.
    + destruct (PyApp.copy_raises f); [|destruct (PyApp.press_raises f)].
      * specialize (IH h d).
        destruct (PyApp.serve rest h d) as [[h2 d2] responses].
        simpl in *. destruct IH as (I1 & I2 & I3 & I4).
        rewrite I1. repeat split; assumption.
      * specialize (IH h (PyApp.mkDesktop (String c text') (PyApp.keys_sent d))).
        destruct (PyApp.serve rest h _) as [[h2 d2] responses].
        simpl in *. destruct IH as (I1 & I2 & I3 & I4).
        rewrite I1. repeat split; assumption.
      * specialize (IH (PyApp.mkHandler (PyApp.is_recording h)
                          (PyApp.accumulated_text h ++ String c text' ++ " ")%string)
                       (PyApp.mkDesktop (String c text')
                          (PyApp.keys_sent d ++ ["ctrl+v"%string]))).
        destruct (PyApp.serve rest _ _) as [[h2 d2] responses].
        simpl in *. destruct IH as (I1 & I2 & I3 & I4).
        rewrite I1, I2, I4, <- app_assoc.
        repeat split; try reflexivity; try assumption.
        rewrite append_assoc. simpl. now rewrite append_assoc.
Qed.

(** X15: every toggle, from the hot key or from the tray menu, flips the
    flag of the handler and copies it to the server, also when the menu
    update or the browser launch raised and the call reported [False].
    After [n] toggles the handler's flag has been flipped [n] times, and
    after the first toggle the flags of handler and server agree. *)
Theorem toggle_flips_whatever_fails (events : list PyApp.ToggleEvent) (s : PyApp.Flags) :
  PyApp.handler_recording (PyApp.toggles events s)
    = (if Nat.even (length events) then PyApp.handler_recording s
       else negb (PyApp.handler_recording s)) /\
  PyApp.server_recording (PyApp.toggles events s)
    = match events with
      | [] => PyApp.server_recording s
      | _ => PyApp.handler_recording (PyApp.toggles events s)
      end.
Proof.
  revert s. induction events as [|e rest IH] using rev_ind; intro s.
  - split; reflexivity.
  - unfold PyApp.toggles. rewrite fold_left_app. simpl fold_left.
    fold (PyApp.toggles rest s).
    destruct (toggle_step_handler (PyApp.toggles rest s) e) as [Hh Hs].
    rewrite Hh, Hs. destruct (IH s) as [IH1 _]. rewrite IH1.
    rewrite length_app, Nat.add_comm. simpl length.
    rewrite Nat.even_succ, <- Nat.negb_even.
    split.
    + destruct (Nat.even (length rest)); simpl; [reflexivity | now rewrite negb_involutive].
    + destruct rest; reflexivity.
Qed.

(** X16: after a click on the tray menu, the flag of the tray is what the
    toggle returned: true only when recording was switched on and neither
    the menu update nor the browser launch raised. When one of them raises
    while recording is switched on, the tray shows recording as off while
    handler and server have it on. A toggle by the hot key leaves the tray
    with the handler's value. The click itself never raises. *)
Theorem tray_flag_after_toggle (f : PyApp.ToggleFailures) (menu_update_raises : bool)
    (s : PyApp.Flags) :
  let clicked := PyApp.toggle_step s (PyApp.TrayClick f menu_update_raises) in
  let pressed := PyApp.toggle_step s (PyApp.Hotkey f) in
  PyApp.tray_recording clicked
    = negb (PyApp.handler_recording s) && negb (PyApp.menu_raises f)
      && negb (PyApp.browser_raises f) /\
  PyApp.handler_recording clicked = negb (PyApp.handler_recording s) /\
  PyApp.tray_recording pressed = PyApp.handler_recording pressed /\
  snd (PyApp._handle_toggle f menu_update_raises s) = PyApp.CallReturns None.
Proof.
  destruct s as [h sv t], f as [m b]. simpl.
  unfold PyApp._handle_toggle, PyApp.app_toggle_recording. simpl.
  destruct h, m, b, menu_update_raises; simpl; repeat split; reflexivity.
Qed.

(** * The page, continued *)

Section Page.

Variable cfg : Config.
Variable speechApi : bool.

Lemma pending_finals_beyond (x : InstanceName) (from : nat) (results : list SpeechResult) :
  length results <= from -> pending_finals x from results = [].
Proof.
  intro Hle. unfold pending_finals.
  replace (length results - from) with 0 by lia. reflexivity.
Qed.

(** *** Engine calls *)

Ltac calls_case :=
  simpl;
  first [ exists []; split; [now rewrite app_nil_r | reflexivity]
        | eexists (cons _ nil); split; reflexivity
        | eexists (cons _ (cons _ nil)); split; [now rewrite <- app_assoc | reflexivity] ].

Lemma run_task_calls (t : Task) (throws : bool) (s : State) :
  exists added,
    calls (run_task cfg t throws s) = calls s ++ added /\
    forallb (fun c => negb (is_abort c)) added = true.
Proof.
  destruct t as [|n o|i]; by_cases s; destruct throws;
    try destruct n; try destruct o; try destruct i; calls_case.
Qed.

Lemma step_calls (e : Event) (s : State) :
  exists added,
    calls (step cfg speechApi s e) = calls s ++ added /\
    forallb (fun c => negb (is_abort c)) added = true.
Proof.
  destruct e as [throws| | |y|y ri rs|y code|y|h throws|dt].
  - by_cases s; destruct speechApi, throws; calls_case.
  - by_cases s; calls_case.
  - calls_case.
  - calls_case.
  - simpl. destruct (recognition y s) as [r|] eqn:Hr.
    + destruct (onresult_effect y ri rs s r Hr)
        as (_ & _ & _ & _ & _ & _ & _ & _ & _ & _ & _ & Hc & _).
      exists []. rewrite Hc, app_nil_r. split; reflexivity.
    + rewrite onresult_absent by exact Hr. calls_case.
  - calls_case.
  - by_cases s; destruct y; calls_case.
  - simpl. unfold fire. destruct (find (handle_is h) (timers s)) as [t|]; [|calls_case].
    destruct (now s <? due t)%N; [calls_case|].
    apply (run_task_calls (task t) throws
             (set_timers
                match every t with
                | Some _ => map (rearm h) (timers s)
                | None => filter (fun u => negb (handle_is h u)) (timers s)
                end s)).
  - calls_case.
Qed.

(** *** The cursor between two callbacks *)

Lemma cursor_kept (x : InstanceName) (tr : list Event) :
  forall (s : State) (r : Recognition),
    recognition x s = Some r ->
    forallb (fun e => negb (result_of x e)) tr = true ->
    recognition x (run cfg speechApi tr s) = Some r.
Proof.
  induction tr as [|e tr IH]; intros s r Hr Hq; [exact Hr|].
  change (run cfg speechApi (e :: tr) s)
    with (run cfg speechApi tr (step cfg speechApi s e)).
  simpl in Hq. apply andb_true_iff in Hq. destruct Hq as [He Hq].
  apply IH; [|exact Hq].
  destruct e as [throws| | |y|y ri rs|y code|y|h throws|dt];
    try (apply (step_not_result cfg speechApi); [intros; discriminate | exact Hr]).
  simpl in He. apply negb_true_iff in He. simpl step.
  exact (proj1 (step_other_result x y ri rs s r He Hr)).
Qed.

(** *** Timers *)

Lemma find_map_rearm (h : nat) (l : list Timer) :
  find (handle_is h) (map (rearm h) l) = option_map (rearm h) (find (handle_is h) l).
Proof.
  induction l as [|u l IH]; simpl; [reflexivity|].
  unfold handle_is at 1. rewrite rearm_handle. fold (handle_is h u).
  destruct (handle_is h u); [reflexivity | exact IH].
Qed.

Lemma filter_idem {T : Type} (p : T -> bool) (l : list T) :
  filter p (filter p l) = filter p l.
Proof.
  induction l as [|a l IH]; simpl; [reflexivity|].
  destruct (p a) eqn:Ha; simpl; rewrite ?Ha, IH; reflexivity.
Qed.

End Page.

(** X17: as long as [clear()] is not called, the transcript on the page is
    what was sent to the server. Along any run of the script (commands,
    callbacks of either instance, timers, in any order) the buffer
    [finalText] grows by exactly the texts of the requests issued, each
    followed by a space and in the order they were issued, and [wordCount]
    by the number of pieces [split(' ')] cuts them into; stop, start, a
    restart and a switch leave both as they are. *)
Theorem transcript_mirrors_requests (cfg : Config) (speechApi : bool)
    (tr : list Event) (s : State) :
  forallb (fun e => negb (is_clear e)) tr = true ->
  exists added : list Forwarded,
    sink (run cfg speechApi tr s) = sink s ++ added /\
    finalText (run cfg speechApi tr s) = (finalText s ++ joined added)%string /\
    wordCount (run cfg speechApi tr s) = wordCount s + split_lengths added.
Proof.
  revert s. induction tr as [|e tr IH]; intros s Hq.
  - exists []. simpl. rewrite app_nil_r, append_nil_r, Nat.add_0_r. auto.
  - change (run cfg speechApi (e :: tr) s)
      with (run cfg speechApi tr (step cfg speechApi s e)).
    simpl in Hq. apply andb_true_iff in Hq. destruct Hq as [He Hq].
    apply negb_true_iff in He.
    assert (Hstep : exists a1,
              sink (step cfg speechApi s e) = sink s ++ a1 /\
              finalText (step cfg speechApi s e) = (finalText s ++ joined a1)%string /\
              wordCount (step cfg speechApi s e) = wordCount s + split_lengths a1).
    { assert (Hquiet : (forall y ri rs, e <> OnResult y ri rs) ->
                exists a1,
                  sink (step cfg speechApi s e) = sink s ++ a1 /\
                  finalText (step cfg speechApi s e) = (finalText s ++ joined a1)%string /\
                  wordCount (step cfg speechApi s e) = wordCount s + split_lengths a1).
      { intro Hne. exists [].
        destruct (step_not_result cfg speechApi e s Hne) as [Hs _].
        destruct (step_keeps_text cfg speechApi e s He Hne) as [Hf Hw].
        rewrite Hs, Hf, Hw. simpl. rewrite app_nil_r, append_nil_r, Nat.add_0_r. auto. }
      destruct e as [throws| | |y|y ri rs|y code|y|h throws|dt];
        try (apply Hquiet; intros; discriminate).
      clear Hquiet. simpl step. destruct (recognition y s) as [r|] eqn:Hr.
      - destruct (onresult_effect y ri rs s r Hr) as (E1 & E2 & E3 & _).
        eexists. split; [exact E1|]. split; [exact E2 | exact E3].
      - rewrite onresult_absent by exact Hr. exists [].
        simpl. rewrite app_nil_r, append_nil_r, Nat.add_0_r. auto. }
    destruct Hstep as (a1 & S1 & S2 & S3).
    destruct (IH (step cfg speechApi s e) Hq) as (a2 & I1 & I2 & I3).
    exists (a1 ++ a2).
    rewrite I1, I2, I3, S1, S2, S3, joined_app, split_lengths_app, app_assoc, append_assoc.
    repeat split; try reflexivity. lia.
Qed.

Lemma transcript_mirrors_requests_witness :
  exists added : list Forwarded,
    sink (run CONFIG true
            [CmdStart false; OnResult A 0 [mkResult "hello world" true]; CmdStop;
             CmdStart false; OnResult A 1 [mkResult "hello world" true; mkResult "again" true]]
            initial) = sink initial ++ added /\
    finalText (run CONFIG true
                 [CmdStart false; OnResult A 0 [mkResult "hello world" true]; CmdStop;
                  CmdStart false; OnResult A 1 [mkResult "hello world" true; mkResult "again" true]]
                 initial) = (finalText initial ++ joined added)%string /\
    wordCount (run CONFIG true
                 [CmdStart false; OnResult A 0 [mkResult "hello world" true]; CmdStop;
                  CmdStart false; OnResult A 1 [mkResult "hello world" true; mkResult "again" true]]
                 initial) = wordCount initial + split_lengths added.
Proof.
  apply (transcript_mirrors_requests CONFIG true
           [CmdStart false; OnResult A 0 [mkResult "hello world" true]; CmdStop;
            CmdStart false; OnResult A 1 [mkResult "hello world" true; mkResult "again" true]]
           initial).
  reflexivity.
Defined.

(** X18: the cursor of an instance is moved by its own result callbacks
    only; nothing resets it. Stop, start, a restart after an end, a switch
    and the callbacks of the other instance all leave it where it was. So
    the next result callback of that instance, also one in a new session,
    appends and forwards only finals at indices from the old cursor on: a
    list no longer than the old cursor is skipped as a whole, and the
    cursor is then set to its length. *)
Theorem cursor_survives_restart (cfg : Config) (speechApi : bool) (x : InstanceName)
    (tr : list Event) (s : State) (r : Recognition) :
  recognition x s = Some r ->
  forallb (fun e => negb (result_of x e)) tr = true ->
  let s' := run cfg speechApi tr s in
  recognition x s' = Some r /\
  forall (resultIndex : nat) (results : list SpeechResult),
    sink (onresult x resultIndex results s')
      = sink s' ++ gated x s' (pending_finals x (lastResultIndex r) results) /\
    (length results <= lastResultIndex r ->
     sink (onresult x resultIndex results s') = sink s' /\
     finalText (onresult x resultIndex results s') = finalText s' /\
     cursor x (onresult x resultIndex results s') = length results).
Proof.
  intros Hr Hq s'.
  assert (Hr' : recognition x s' = Some r) by (apply cursor_kept; assumption).
  split; [exact Hr'|].
  intros ri rs.
  destruct (onresult_effect x ri rs s' r Hr') as (E1 & E2 & _ & E4 & _).
  split; [exact E1|].
  intro Hle. rewrite E1, E2, (pending_finals_beyond x _ rs Hle).
  unfold cursor. rewrite E4. unfold gated.
  destruct (instance_eqb x (activeInstance s')); simpl;
    rewrite app_nil_r, append_nil_r; repeat split; reflexivity.
Qed.

Lemma cursor_survives_restart_witness :
  let s := run CONFIG true
             [CmdStart false; OnResult A 0 [mkResult "one" true; mkResult "two" true]]
             initial in
  let s' := run CONFIG true [OnEnd A; Elapse 50; Fire 1 false; CmdStop; CmdStart false] s in
  recognition A s' = Some (mkRecognition 2) /\
  forall (resultIndex : nat) (results : list SpeechResult),
    sink (onresult A resultIndex results s')
      = sink s' ++ gated A s' (pending_finals A 2 results) /\
    (length results <= 2 ->
     sink (onresult A resultIndex results s') = sink s' /\
     finalText (onresult A resultIndex results s') = finalText s' /\
     cursor A (onresult A resultIndex results s') = length results).
Proof.
  intros s s'.
  apply (cursor_survives_restart CONFIG true A
           [OnEnd A; Elapse 50; Fire 1 false; CmdStop; CmdStart false] s (mkRecognition 2)).
  - reflexivity.
  - reflexivity.
Defined.

Lemma failed_switch_state (cfg : Config) (h : nat) (t : Timer) (p : N)
    (x : InstanceName) (throws : bool) (s : State) :
  isRecording s = true ->
  activeInstance s = x ->
  find (handle_is h) (timers s) = Some t ->
  task t = TaskSwitch ->
  every t = Some p ->
  (due t <= now s)%N ->
  throws = true \/ recognition (other x) s = None ->
  fire cfg h throws s =
  match recognition (other x) s with
  | Some _ => set_calls (calls s ++ [EngineStart (other x) throws])
                (set_timers (map (rearm h) (timers s)) s)
  | None => set_timers (map (rearm h) (timers s)) s
  end.
Proof.
  intros Hrec Hact Hf Htask Hevery Hdue Hfail. unfold fire. rewrite Hf.
  apply N.ltb_ge in Hdue. rewrite Hdue, Htask, Hevery.
  simpl. unfold switch_callback, switchInstances. simpl. rewrite Hrec. simpl.
  rewrite Hact. unfold engine_start.
  destruct x; simpl in *; destruct s; simpl in *;
    (destruct recognitionA0 + destruct recognitionB0); simpl;
    destruct Hfail as [-> | Hnone]; try discriminate Hnone; reflexivity.
Qed.

(** X19: a switch that fails is not retried before the next tick of the
    interval. When the switch interval runs while [x] is active and
    [start()] of the other instance throws, or that instance has no
    object, no hand-off is queued: the timer queue only has the interval
    armed again one period later, [x] stays the active instance, the
    switch counter stays and the session stays recording. Until one more
    period has passed, running the interval's callback changes nothing. *)
Theorem failed_switch_waits_for_next_tick (cfg : Config) (h : nat) (t : Timer) (p : N)
    (x : InstanceName) (throws : bool) (s : State) :
  isRecording s = true ->
  activeInstance s = x ->
  find (handle_is h) (timers s) = Some t ->
  task t = TaskSwitch ->
  every t = Some p ->
  (due t <= now s)%N ->
  throws = true \/ recognition (other x) s = None ->
  let s' := fire cfg h throws s in
  activeInstance s' = x /\
  instanceSwitches s' = instanceSwitches s /\
  isRecording s' = true /\
  timers s' = map (rearm h) (timers s) /\
  nextHandle s' = nextHandle s /\
  forall (dt : N) (throws' : bool),
    (now s + dt < due t + p)%N ->
    fire cfg h throws' (elapse dt s') = elapse dt s'.
Proof.
  intros Hrec Hact Hf Htask Hevery Hdue Hfail s'.
  assert (Hs' : activeInstance s' = x /\ instanceSwitches s' = instanceSwitches s /\
                isRecording s' = true /\ timers s' = map (rearm h) (timers s) /\
                nextHandle s' = nextHandle s /\ now s' = now s).
  { unfold s'.
    rewrite (failed_switch_state cfg h t p x throws s Hrec Hact Hf Htask Hevery Hdue Hfail).
    destruct (recognition (other x) s); simpl; repeat split; assumption. }
  destruct Hs' as (H1 & H2 & H3 & H4 & H5 & H6).
  conjuncts; try assumption.
  intros dt throws' Hlt.
  assert (Hh : handle_is h t = true) by (apply (find_some _ _ Hf)).
  apply (fire_early cfg h throws' (elapse dt s') (rearm h t)).
  - simpl. rewrite H4, find_map_rearm, Hf. reflexivity.
  - unfold rearm. rewrite Hevery, Hh. simpl. rewrite H6. exact Hlt.
Qed.

Lemma failed_switch_waits_for_next_tick_witness :
  let s := elapse 55000 listening in
  let s' := fire CONFIG 0 true s in
  activeInstance s' = A /\
  instanceSwitches s' = instanceSwitches s /\
  isRecording s' = true /\
  timers s' = map (rearm 0) (timers s) /\
  nextHandle s' = nextHandle s /\
  forall (dt : N) (throws' : bool),
    (now s + dt < 55000 + 55000)%N ->
    fire CONFIG 0 throws' (elapse dt s') = elapse dt s'.
Proof.
  intros s s'.
  apply (failed_switch_waits_for_next_tick CONFIG 0
           (mkTimer 0 55000 (Some 55000%N) TaskSwitch) 55000 A true s).
  - reflexivity.
  - reflexivity.
  - reflexivity.
  - reflexivity.
  - reflexivity.
  - vm_compute. discriminate.
  - left. reflexivity.
Defined.

(** X20: the script never calls [abort()]. Along any run the log of engine
    calls only grows, and what is added are [start()] and [stop()]
    calls. *)
Theorem script_never_aborts (cfg : Config) (speechApi : bool) (tr : list Event)
    (s : State) :
  exists added : list EngineCall,
    calls (run cfg speechApi tr s) = calls s ++ added /\
    forallb (fun c => negb (is_abort c)) added = true.
Proof.
  revert s. induction tr as [|e tr IH]; intro s.
  - exists []. simpl. now rewrite app_nil_r.
  - change (run cfg speechApi (e :: tr) s)
      with (run cfg speechApi tr (step cfg speechApi s e)).
    destruct (step_calls cfg speechApi e s) as (a1 & S1 & S2).
    destruct (IH (step cfg speechApi s e)) as (a2 & I1 & I2).
    exists (a1 ++ a2). rewrite I1, S1, app_assoc, forallb_app, S2, I2.
    split; reflexivity.
Qed.

(** X21: [stopRec] on a page that is already stopped changes nothing but
    the log of engine calls: it calls [stop()] once more on each object
    that exists. The handle in [switchTimer] is not cleared by [stopRec],
    and clearing its timer a second time removes nothing. *)
Theorem stop_twice (s : State) :
  stopRec (stopRec s) = set_calls (calls (stopRec s) ++ stop_calls s) (stopRec s).
Proof.
  by_cases s; apply state_ext; simpl;
    rewrite ?filter_idem, <- ?app_assoc, ?app_nil_r; reflexivity.
Qed.

(** X22: a start that fails leaves the page recording. When [start()] of
    instance [A] throws in [startRec], or the objects could not be
    created, [isRecording] is true all the same, with [A] active and the
    switch counter at [0]; no switch interval is set, the timer queue and
    the status line are as before. *)
Theorem failed_start_keeps_recording_flag (cfg : Config) (speechApi throws : bool)
    (s : State) :
  throws = true \/ (speechApi = false /\ recognitionA s = None) ->
  let s' := startRec cfg speechApi throws s in
  isRecording s' = true /\
  activeInstance s' = A /\
  instanceSwitches s' = 0 /\
  timers s' = timers s /\
  switchTimer s' = switchTimer s /\
  statusEl s' = statusEl s /\
  finalText s' = finalText s.
Proof.
  intros [-> | [-> Hnone]].
  - by_cases s; destruct speechApi; simpl; repeat split; reflexivity.
  - by_cases s; try discriminate Hnone; destruct throws; simpl; repeat split; reflexivity.
Qed.

Lemma failed_start_keeps_recording_flag_witness :
  let s' := startRec CONFIG true true initial in
  isRecording s' = true /\
  activeInstance s' = A /\
  instanceSwitches s' = 0 /\
  timers s' = timers initial /\
  switchTimer s' = switchTimer initial /\
  statusEl s' = statusEl initial /\
  finalText s' = finalText initial.
Proof.
  apply (failed_start_keeps_recording_flag CONFIG true true initial).
  left. reflexivity.
Defined.
